(** * Spotify wrapper: a shallow embedding of [src/wrapper.ts]

    The two classes of the library, [Wrapper] and [TrackAnalysis], are
    embedded as state-passing functions over a [World] that holds the fields
    of the wrapper instance, the trace of HTTP traffic and the lines written
    with [console.error].  The remote API is an oracle [net] that may answer
    differently every time it is asked: it sees the whole trace so far.
    Values are the values of the running program, not those of the
    declared types: a body is whatever JSON the remote side sends. *)

From Stdlib Require Import ZArith QArith String Ascii Bool Lia DecimalString.
From stdpp Require Import base option list strings.

Local Open Scope string_scope.
Local Open Scope Z_scope.
Local Open Scope list_scope.

(** ** JavaScript values

    What [axios] hands back as [response.data] is a parsed JSON document;
    [undefined] is added because the methods return it.  An object keeps
    its properties in insertion order, [obj_lookup] reads the first
    binding of a key. *)

#[local] Set Warnings "-register-all".

Inductive value : Type :=
| VUndefined
| VNull
| VBool (b : bool)
| VNum (q : Q)
| VStr (s : string)
| VArr (elems : list value)
| VObj (props : list (string * value)).

Inductive HttpResult : Type :=
| NetworkError
| HttpResponse (status : Z) (data : value).

Inductive error : Type :=
| AxiosError (res : HttpResult)
| TypeError.

Inductive Result (A : Type) : Type :=
| Ok (a : A)
| Throw (e : error).
Arguments Ok {A} a.
Arguments Throw {A} e.

Definition rbind {A B} (r : Result A) (k : A -> Result B) : Result B :=
  match r with
  | Ok a => k a
  | Throw e => Throw e
  end.

Fixpoint obj_lookup (props : list (string * value)) (key : string) : value :=
  match props with
  | [] => VUndefined
  | (k, v) :: rest => if String.eqb k key then v else obj_lookup rest key
  end.

(** [o.key]: reading a property of [undefined] or [null] throws a
    [TypeError]; an object yields its own property or [undefined]; the
    other values have none of the properties the library reads
    ([access_token], [tracks], [items], [track], [id]). *)
Definition get_prop (o : value) (key : string) : Result value :=
  match o with
  | VUndefined | VNull => Throw TypeError
  | VObj props => Ok (obj_lookup props key)
  | _ => Ok VUndefined
  end.

(** [key] is an own property of the object. *)
Definition has_own (props : list (string * value)) (key : string) : bool :=
  existsb (fun kv => String.eqb kv.1 key) props.

(** JavaScript truthiness, as tested by [!playlist]. *)
Definition truthy (v : value) : bool :=
  match v with
  | VUndefined | VNull => false
  | VBool b => b
  | VNum q => negb (Qeq_bool q 0)
  | VStr s => negb (String.eqb s "")
  | VArr _ | VObj _ => true
  end.

(** ** Requests, events and the world *)

Inductive Method : Type := GET | POST.

Record Request : Type := mkRequest {
  method : Method;
  url : string;
  headers : list (string * string);
  params : value;
  data : value
}.

Inductive Event : Type :=
| Sent (req : Request)
| Recv (req : Request) (res : HttpResult).

Record World : Type := mkWorld {
  clientId : string;
  clientSecret : string;
  accessToken : value;
  trace : list Event;
  console : list (string * error)
}.

(** [new Wrapper(clientId, clientSecret)] *)
Definition constructor (clientId clientSecret : string) : World :=
  mkWorld clientId clientSecret VNull [] [].

Definition with_accessToken (t : value) (w : World) : World :=
  mkWorld (clientId w) (clientSecret w) t (trace w) (console w).

Definition with_event (e : Event) (w : World) : World :=
  mkWorld (clientId w) (clientSecret w) (accessToken w) (trace w ++ [e]) (console w).

Definition with_console (msg : string) (e : error) (w : World) : World :=
  mkWorld (clientId w) (clientSecret w) (accessToken w) (trace w) (console w ++ [(msg, e)]).

(** ** The monad of the async methods: state and exceptions *)

Definition M (A : Type) : Type := World -> Result A * World.

Definition ret {A} (a : A) : M A := fun w => (Ok a, w).

Definition throw {A} (e : error) : M A := fun w => (Throw e, w).

Definition bind {A B} (m : M A) (k : A -> M B) : M B :=
  fun w => match m w with
           | (Ok a, w') => k a w'
           | (Throw e, w') => (Throw e, w')
           end.

Definition try_catch {A} (body : M A) (handler : error -> M A) : M A :=
  fun w => match body w with
           | (Ok a, w') => (Ok a, w')
           | (Throw e, w') => handler e w'
           end.

Definition lift {A} (r : Result A) : M A := fun w => (r, w).

Definition get_accessToken : M value := fun w => (Ok (accessToken w), w).

Definition set_accessToken (t : value) : M unit := fun w => (Ok tt, with_accessToken t w).

Definition console_error (msg : string) (e : error) : M unit :=
  fun w => (Ok tt, with_console msg e w).

Declare Scope m_scope.
Delimit Scope m_scope with M.
Notation "x <- m ;; k" := (bind m (fun x => k))
  (at level 100, m at next level, right associativity) : m_scope.
Notation "m ;;; k" := (bind m (fun _ => k))
  (at level 100, right associativity) : m_scope.

(** The status codes for which [axios] resolves its promise (its default
    [validateStatus]); for every other status, and when the transport
    itself fails, the promise rejects. *)
Definition status_ok (status : Z) : bool := (200 <=? status) && (status <? 300).

Definition axios_ok (res : HttpResult) : bool :=
  match res with
  | NetworkError => false
  | HttpResponse status _ => status_ok status
  end.

(** The promise of an [axios] call, once the transport has answered:
    [response.data] when it resolves. *)
Definition settle (res : HttpResult) : Result value :=
  match res with
  | HttpResponse status d => if status_ok status then Ok d else Throw (AxiosError res)
  | NetworkError => Throw (AxiosError res)
  end.

(** What a caller of [makeRequest] sees of an answer. *)
Definition degrade (res : HttpResult) : value :=
  match settle res with
  | Ok d => d
  | Throw _ => VUndefined
  end.

Definition tokenUrl : string := "https://accounts.spotify.com/api/token".

Definition is_post_to (u : string) (e : Event) : bool :=
  match e with
  | Sent (mkRequest POST u' _ _ _) => String.eqb u u'
  | _ => false
  end.

Definition features_base : string := "https://api.spotify.com/v1/audio-features/".

Definition is_features_get (e : Event) : bool :=
  match e with
  | Sent (mkRequest GET u _ _ _) => String.prefix features_base u
  | _ => false
  end.

Definition count_events (p : Event -> bool) (t : list Event) : nat :=
  length (filter (fun e => p e = true) t).

(** ** Scenarios: a runtime and a few remote sides to run the model on *)

Module Scenario.

Definition base64_alphabet : string :=
  "ABCDEFGHIJKLMNOPQRSTUVWXYZabcdefghijklmnopqrstuvwxyz0123456789+/".

Definition base64_digit (n : N) : ascii :=
  match String.get (N.to_nat (n mod 64)) base64_alphabet with
  | Some c => c
  | None => "="%char
  end.

(** Base64 of a string of bytes, with padding. *)
Fixpoint base64 (s : string) : string :=
  match s with
  | EmptyString => EmptyString
  | String a EmptyString =>
      let n := (N_of_ascii a * 16)%N in
      String (base64_digit (n / 64)) (String (base64_digit n) "==")
  | String a (String b EmptyString) =>
      let n := ((N_of_ascii a * 256 + N_of_ascii b) * 4)%N in
      String (base64_digit (n / 4096)) (String (base64_digit (n / 64))
        (String (base64_digit n) "="))
  | String a (String b (String c rest)) =>
      let n := ((N_of_ascii a * 256 + N_of_ascii b) * 256 + N_of_ascii c)%N in
      String (base64_digit (n / 262144)) (String (base64_digit (n / 4096))
        (String (base64_digit (n / 64)) (String (base64_digit n) (base64 rest))))
  end.

(** The text of an integer; the scenarios interpolate no other number. *)
Definition number_to_string (q : Q) : string :=
  NilZero.string_of_int (Z.to_int (Qnum q / Zpos (Qden q))).

Definition token_response : HttpResult :=
  HttpResponse 200 (VObj [("access_token", VStr "tok")]).

Definition track (id name artist : string) : value :=
  VObj [("id", VStr id); ("name", VStr name);
        ("artists", VArr [VObj [("name", VStr artist)]])].

Definition playlist_p1 : value :=
  VObj [("id", VStr "p1"); ("name", VStr "Mix");
        ("tracks", VObj [("items",
           VArr [VObj [("track", track "t1" "A" "X")];
                 VObj [("track", track "t2" "B" "Y")]])])].

Definition playlist_empty : value :=
  VObj [("id", VStr "p0"); ("name", VStr "None"); ("tracks", VObj [("items", VArr [])])].

Definition search_result : value :=
  VObj [("tracks", VObj [("items", VArr [track "t1" "A" "X"])])].

(** A remote side that is up: tokens are granted, [p1], [p0] and the
    search exist, the features of [t1] exist and those of [t2] do not. *)
Definition net_up (history : list Event) (req : Request) : HttpResult :=
  if String.eqb (url req) tokenUrl then token_response
  else if String.eqb (url req) "https://api.spotify.com/v1/playlists/p1"
  then HttpResponse 200 playlist_p1
  else if String.eqb (url req) "https://api.spotify.com/v1/playlists/p0"
  then HttpResponse 200 playlist_empty
  else if String.eqb (url req) "https://api.spotify.com/v1/search"
  then HttpResponse 200 search_result
  else if String.eqb (url req) "https://api.spotify.com/v1/audio-features/t1"
  then HttpResponse 200 (VObj [("danceability", VNum (1 # 2))])
  else if String.eqb (url req) "https://api.spotify.com/v1/users/u1/playlists"
  then HttpResponse 201 (VObj [("id", VStr "pl1"); ("name", VStr "My List");
                               ("tracks", VObj [("items", VArr [])])])
  else HttpResponse 404 VNull.

(** A remote side that cannot be reached. *)
Definition net_down (history : list Event) (req : Request) : HttpResult :=
  NetworkError.

(** A remote side that grants tokens and knows nothing else. *)
Definition net_auth_only (history : list Event) (req : Request) : HttpResult :=
  if String.eqb (url req) tokenUrl then token_response else HttpResponse 404 VNull.

(** A remote side that refuses the credentials and still serves what
    [net_up] serves. *)
Definition net_no_token (history : list Event) (req : Request) : HttpResult :=
  if String.eqb (url req) tokenUrl
  then HttpResponse 401 (VObj [("error", VStr "invalid_client")])
  else net_up history req.

(** A playlist with an entry whose track is [null]. *)
Definition playlist_gap : value :=
  VObj [("id", VStr "p2"); ("name", VStr "Gap");
        ("tracks", VObj [("items",
           VArr [VObj [("track", track "t1" "A" "X")];
                 VObj [("track", VNull)]])])].

(** A remote side that answers every playlist with [playlist_gap]. *)
Definition net_gap (history : list Event) (req : Request) : HttpResult :=
  if String.eqb (url req) tokenUrl then token_response
  else if String.prefix "https://api.spotify.com/v1/playlists/" (url req)
  then HttpResponse 200 playlist_gap
  else HttpResponse 404 VNull.

(** A remote side that answers everything but the token request with an
    empty object. *)
Definition net_bare (history : list Event) (req : Request) : HttpResult :=
  if String.eqb (url req) tokenUrl then token_response else HttpResponse 200 (VObj []).

(** A remote side whose token endpoint answers 200 with the body [null]. *)
Definition net_null_token (history : list Event) (req : Request) : HttpResult :=
  if String.eqb (url req) tokenUrl then HttpResponse 200 VNull else net_up history req.

(** A remote side whose token endpoint answers 200 with a body that has
    no [access_token]. *)
Definition net_no_field (history : list Event) (req : Request) : HttpResult :=
  if String.eqb (url req) tokenUrl
  then HttpResponse 200 (VObj [("token_type", VStr "Bearer")])
  else net_up history req.

(** A remote side that answers everything but the token request with
    204 and an empty body. *)
Definition net_blank (history : list Event) (req : Request) : HttpResult :=
  if String.eqb (url req) tokenUrl then token_response else HttpResponse 204 (VStr "").

(** A value that no template literal can print: its own [toString] is
    not a function. *)
Definition no_text : value := VObj [("toString", VNum 1)].

(** A remote side like [net_up] that grants a token without text. *)
Definition net_odd_token (history : list Event) (req : Request) : HttpResult :=
  if String.eqb (url req) tokenUrl
  then HttpResponse 200 (VObj [("access_token", no_text)])
  else net_up history req.


(** A remote side like [net_up] that names each token it grants after
    the number of events before the grant. *)
Definition net_numbered_tokens (history : list Event) (req : Request) : HttpResult :=
  if String.eqb (url req) tokenUrl
  then HttpResponse 200
         (VObj [("access_token",
                 VStr (String (ascii_of_nat (65 + length history)) EmptyString))])
  else net_up history req.




Definition w0 : World := constructor "id1" "secret1".

(** A wrapper that holds a token without text. *)
Definition w_odd : World := with_accessToken no_text w0.

(** A wrapper that holds a token from earlier. *)
Definition w_old : World := with_accessToken (VStr "old") w0.

End Scenario.

Section Wrapper.

(** The remote side: the answer to a request, given everything sent and
    received before it. *)
Variable net : list Event -> Request -> HttpResult.

(** [Buffer.from(s).toString('base64')], from the Node runtime. *)
Variable base64 : string -> string.

(** The decimal text JavaScript gives a number in a template literal. *)
Variable number_to_string : Q -> string.

(** [`${v}`]: the text of a value, as a template literal asks for it.  A
    parsed JSON object prints as [[object Object]] through the [toString]
    it inherits; when it has a [toString] of its own, that is no function
    and the inherited [valueOf] returns the object, so the conversion
    throws a [TypeError].  An array joins the texts of its elements with
    commas, [null] and [undefined] counting as empty, and throws when an
    element does. *)
Fixpoint to_js_string (v : value) : Result string :=
  match v with
  | VUndefined => Ok "undefined"
  | VNull => Ok "null"
  | VBool true => Ok "true"
  | VBool false => Ok "false"
  | VNum q => Ok (number_to_string q)
  | VStr s => Ok s
  | VArr elems =>
      (fix join (l : list value) : Result string :=
         match l with
         | [] => Ok ""
         | x :: rest =>
             rbind (match x with
                    | VUndefined | VNull => Ok ""
                    | _ => to_js_string x
                    end) (fun sx =>
             match rest with
             | [] => Ok sx
             | _ :: _ => rbind (join rest) (fun sr => Ok (sx +:+ "," +:+ sr))
             end)
         end) elems
  | VObj props =>
      if has_own props "toString" then Throw TypeError else Ok "[object Object]"
  end.

(** Handing a request to the transport. *)
Definition send (req : Request) : M unit :=
  fun w => (Ok tt, with_event (Sent req) w).

(** [await] on the promise of a request in flight, with nothing else
    running on this wrapper meanwhile. *)
Definition await (req : Request) : M HttpResult :=
  fun w => let res := net (trace w) req in
           (Ok res, with_event (Recv req res) w).

(** *** [Wrapper.authenticate] *)

Definition authRequest (w : World) : Request :=
  let data := "grant_type=client_credentials" in
  let authOptions :=
    [("Authorization", "Basic " +:+ base64 (clientId w +:+ ":" +:+ clientSecret w));
     ("Content-Type", "application/x-www-form-urlencoded")] in
  mkRequest POST tokenUrl authOptions VUndefined (VStr data).

(** up to the [await] of [axios.post] *)
Definition authenticate_send : M Request :=
  fun w => let req := authRequest w in (Ok req, with_event (Sent req) w).

(** from the answer on: the rest of the [try] block and its [catch] *)
Definition authenticate_resume (res : HttpResult) : M unit :=
  (try_catch
     (response_data <- lift (settle res) ;;
      access_token <- lift (get_prop response_data "access_token") ;;
      set_accessToken access_token)
     (fun error => console_error "Failed to authenticate with Spotify API" error))%M.

Definition authenticate : M unit :=
  (req <- authenticate_send ;;
   res <- await req ;;
   authenticate_resume res)%M.

(** *** [Wrapper.makeRequest] *)

(** the GET with its options, [bearer] being the text of the token *)
Definition getRequest (u : string) (ps : value) (bearer : string) : Request :=
  mkRequest GET u [("Authorization", "Bearer " +:+ bearer)] ps VUndefined.

(** after [await this.authenticate()], up to the [await] of [axios.get]:
    the options are built outside the [try], so a token without text
    makes the call throw here *)
Definition makeRequest_send (u : string) (ps : value) : M Request :=
  (token <- get_accessToken ;;
   bearer <- lift (to_js_string token) ;;
   let req := getRequest u ps bearer in
   send req ;;;
   ret req)%M.

Definition makeRequest_resume (u : string) (res : HttpResult) : M value :=
  (try_catch
     (response_data <- lift (settle res) ;;
      ret response_data)
     (fun error =>
        console_error ("Failed to fetch from Spotify API: " +:+ u) error ;;;
        ret VUndefined))%M.

Definition makeRequest (u : string) (ps : value) : M value :=
  (authenticate ;;;
   req <- makeRequest_send u ps ;;
   res <- await req ;;
   makeRequest_resume u res)%M.

(** [data?.a] and [data?.a.b] *)
Definition optional_chain (d : value) (k : value -> Result value) : Result value :=
  match d with
  | VUndefined | VNull => Ok VUndefined
  | _ => k d
  end.

(** *** The read methods *)

Definition getPlaylist (playlistId : string) : M value :=
  makeRequest ("https://api.spotify.com/v1/playlists/" +:+ playlistId) VUndefined.

Definition searchTracks (query : string) : M value :=
  (d <- makeRequest "https://api.spotify.com/v1/search"
          (VObj [("q", VStr query); ("type", VStr "track")]) ;;
   lift (optional_chain d (fun d => rbind (get_prop d "tracks") (fun t => get_prop t "items"))))%M.

Definition getAlbum (albumId : string) : M value :=
  makeRequest ("https://api.spotify.com/v1/albums/" +:+ albumId) VUndefined.

Definition getArtist (artistId : string) : M value :=
  makeRequest ("https://api.spotify.com/v1/artists/" +:+ artistId) VUndefined.

Definition getUserProfile (userId : string) : M value :=
  makeRequest ("https://api.spotify.com/v1/users/" +:+ userId) VUndefined.

Definition getArtistTopTracks (artistId market : string) : M value :=
  (d <- makeRequest ("https://api.spotify.com/v1/artists/" +:+ artistId +:+ "/top-tracks")
          (VObj [("market", VStr market)]) ;;
   lift (optional_chain d (fun d => get_prop d "tracks")))%M.

Definition getArtistAlbums (artistId : string) : M value :=
  (d <- makeRequest ("https://api.spotify.com/v1/artists/" +:+ artistId +:+ "/albums") VUndefined ;;
   lift (optional_chain d (fun d => get_prop d "items")))%M.

(** *** The two mutations

    Both build their options, token included, before their [try]. *)

Definition createPlaylistRequest (userId name description : string) (publicStatus : bool)
    (bearer : string) : Request :=
  let u := "https://api.spotify.com/v1/users/" +:+ userId +:+ "/playlists" in
  let options :=
    [("Authorization", "Bearer " +:+ bearer);
     ("Content-Type", "application/json")] in
  let data := VObj [("name", VStr name);
                    ("description", VStr description);
                    ("public", VBool publicStatus)] in
  mkRequest POST u options VUndefined data.

Definition createPlaylist (userId name description : string) (publicStatus : bool) : M value :=
  (token <- get_accessToken ;;
   bearer <- lift (to_js_string token) ;;
   let req := createPlaylistRequest userId name description publicStatus bearer in
   send req ;;;
   res <- await req ;;
   try_catch
     (response_data <- lift (settle res) ;;
      ret response_data)
     (fun error =>
        console_error "Failed to create playlist" error ;;;
        ret VUndefined))%M.

Definition addTracksRequest (playlistId : string) (trackUris : list string)
    (bearer : string) : Request :=
  let u := "https://api.spotify.com/v1/playlists/" +:+ playlistId +:+ "/tracks" in
  let options :=
    [("Authorization", "Bearer " +:+ bearer);
     ("Content-Type", "application/json")] in
  let data := VObj [("uris", VArr (map VStr trackUris))] in
  mkRequest POST u options VUndefined data.

Definition addTracksToPlaylist (playlistId : string) (trackUris : list string) : M unit :=
  (token <- get_accessToken ;;
   bearer <- lift (to_js_string token) ;;
   let req := addTracksRequest playlistId trackUris bearer in
   send req ;;;
   res <- await req ;;
   try_catch
     (_ <- lift (settle res) ;;
      ret tt)
     (fun error => console_error "Failed to add tracks to playlist" error))%M.

(** ** [TrackAnalysis] *)

(** The id arrives as whatever [item.track.id] is; the URL is built
    before [makeRequest] is called. *)
Definition getTrackFeatures (trackId : value) : M value :=
  (text <- lift (to_js_string trackId) ;;
   makeRequest (features_base +:+ text) VUndefined)%M.

(** *** The fan-out of [analyzePlaylist]

    [items.map(item => this.getTrackFeatures(item.track.id))] runs every
    call up to its first [await], the one inside [authenticate]; what
    [Promise.all] then waits for is a list of tasks.  A task is parked
    at the [await] of its token request, or between the end of
    [authenticate] and the rest of [makeRequest], which read the token
    in two different jobs, or at the [await] of its GET, or it is
    settled. *)

Inductive Task : Type :=
| AwaitAuth (u : string) (req : Request)
| Authed (u : string)
| AwaitGet (u : string) (req : Request)
| Done (r : Result value).

(** An async function runs to its first [await]; an exception before
    that gives a rejected promise, not an exception in the caller. *)
Definition start (body : M Task) : M Task :=
  fun w => match body w with
           | (Ok t, w') => (Ok t, w')
           | (Throw e, w') => (Ok (Done (Throw e)), w')
           end.

Definition getTrackFeatures_start (trackId : value) : M Task :=
  start (text <- lift (to_js_string trackId) ;;
         let u := features_base +:+ text in
         req <- authenticate_send ;;
         ret (AwaitAuth u req))%M.

(** A task runs its next job: from the answer to its token request to
    the end of [authenticate]; from there to the [await] of its GET;
    from the answer to its GET to its end.  An exception that escapes
    rejects its promise. *)
Definition resume (t : Task) : World -> Task * World :=
  fun w =>
    let body : M Task :=
      (match t with
       | AwaitAuth u areq =>
           res <- await areq ;;
           authenticate_resume res ;;;
           ret (Authed u)
       | Authed u =>
           req <- makeRequest_send u VUndefined ;;
           ret (AwaitGet u req)
       | AwaitGet u req =>
           res <- await req ;;
           v <- makeRequest_resume u res ;;
           ret (Done (Ok v))
       | Done r => ret (Done r)
       end)%M in
    match body w with
    | (Ok t', w') => (t', w')
    | (Throw e, w') => (Done (Throw e), w')
    end.

(** Task [i] runs its next job; an index that names no task is skipped. *)
Definition deliver (i : nat) (st : list Task * World) : list Task * World :=
  match st.1 !! i with
  | Some t => let (t', w') := resume t st.2 in (<[i := t']> st.1, w')
  | None => st
  end.

(** The jobs run in the order of the schedule.  Every interleaving of
    the jobs of the tasks is a schedule, those of the job queue among
    them. *)
Definition run (sched : list nat) (st : list Task * World) : list Task * World :=
  foldl (fun st i => deliver i st) st sched.

Inductive Promise (A : Type) : Type :=
| Pending
| Fulfilled (a : A)
| Rejected (e : error).
Arguments Pending {A}.
Arguments Fulfilled {A} a.
Arguments Rejected {A} e.

Fixpoint first_rejection (tasks : list Task) : option error :=
  match tasks with
  | [] => None
  | Done (Throw e) :: _ => Some e
  | _ :: rest => first_rejection rest
  end.

Fixpoint all_results (tasks : list Task) : option (list value) :=
  match tasks with
  | [] => Some []
  | Done (Ok v) :: rest =>
      match all_results rest with
      | Some vs => Some (v :: vs)
      | None => None
      end
  | _ :: _ => None
  end.

(** [Promise.all]: rejected once a task is, fulfilled with the results
    in the order of the tasks once all are, pending otherwise.  Of several
    rejected tasks the first of the list is reported; every rejection of
    the fan-out is the same [TypeError] ([fanout_rejections]). *)
Definition promise_all (tasks : list Task) : Promise (list value) :=
  match first_rejection tasks with
  | Some e => Rejected e
  | None =>
      match all_results tasks with
      | Some vs => Fulfilled vs
      | None => Pending
      end
  end.

(** [xs.map(f)] needs an array. *)
Definition as_array (v : value) : Result (list value) :=
  match v with
  | VArr elems => Ok elems
  | _ => Throw TypeError
  end.

(** [items.map(item => this.getTrackFeatures(item.track.id))]: reading
    [item.track.id] happens in the callback and throws in the caller. *)
Fixpoint spawn (items : list value) : M (list Task) :=
  match items with
  | [] => ret []
  | item :: rest =>
      (track <- lift (get_prop item "track") ;;
       id <- lift (get_prop track "id") ;;
       t <- getTrackFeatures_start id ;;
       ts <- spawn rest ;;
       ret (t :: ts))%M
  end.

(** [playlist.tracks.items.map(...)] *)
Definition fanout (playlist : value) : M (list Task) :=
  (tracks <- lift (get_prop playlist "tracks") ;;
   items <- lift (get_prop tracks "items") ;;
   elems <- lift (as_array items) ;;
   spawn elems)%M.

(** [sched] is the order in which the jobs of the fan-out run. *)
Definition analyzePlaylist (sched : list nat) (playlistId : string)
    : World -> Promise value * World :=
  fun w =>
    match getPlaylist playlistId w with
    | (Throw e, w1) => (Rejected e, w1)
    | (Ok playlist, w1) =>
        if negb (truthy playlist) then (Fulfilled VUndefined, w1)
        else
          match fanout playlist w1 with
          | (Throw e, w2) => (Rejected e, w2)
          | (Ok tasks, w2) =>
              let (tasks', w3) := run sched (tasks, w2) in
              (match promise_all tasks' with
               | Pending => Pending
               | Fulfilled trackFeatures => Fulfilled (VArr trackFeatures)
               | Rejected e => Rejected e
               end, w3)
          end
    end.

(** [items.map(item => item.track.id)] *)
Fixpoint item_ids (items : list value) : Result (list value) :=
  match items with
  | [] => Ok []
  | item :: rest =>
      rbind (get_prop item "track") (fun track =>
      rbind (get_prop track "id") (fun id =>
      rbind (item_ids rest) (fun ids => Ok (id :: ids))))
  end.

(** [playlist.tracks.items.map(item => item.track.id)], the ids the
    fan-out asks for. *)
Definition track_ids (playlist : value) : Result (list value) :=
  rbind (get_prop playlist "tracks") (fun tracks =>
  rbind (get_prop tracks "items") (fun items =>
  rbind (as_array items) item_ids)).

(** Every job of [n] tasks runs: each index below [n] occurs three
    times, for the answer to the token request, the sending of the GET
    and the answer to the GET. *)
Definition complete (n : nat) (sched : list nat) : bool :=
  forallb (fun i => (3 <=? count_occ Nat.eq_dec sched i)%nat) (seq 0 n).

(** ** Predicates the statements are written with *)

(** The call [m] in world [w] ends with the transport answering [res] to
    a GET the call has sent. *)
Definition answered_with {A} (m : M A) (w : World) (res : HttpResult) : Prop :=
  exists t req, trace (m w).2 = t ++ [Sent req; Recv req res] /\ method req = GET.

(** The value can be written into a template literal. *)
Definition has_text (v : value) : Prop := exists text, to_js_string v = Ok text.

(** A call of [m] sends one token request first, whatever token is
    held, and no other; when the token held after [authenticate] has a
    text, one GET to [u] and its answer follow; when it has none,
    nothing follows and the call throws. *)
Definition authenticates_once_then_gets {A} (m : M A) (u : string) : Prop :=
  forall w, exists rest,
    let areq := authRequest w in
    let ares := net (trace w ++ [Sent areq]) areq in
    trace (m w).2 = trace w ++ [Sent areq; Recv areq ares] ++ rest
    /\ count_events (is_post_to tokenUrl) (trace (m w).2)
       = S (count_events (is_post_to tokenUrl) (trace w))
    /\ (forall bearer, to_js_string (accessToken (authenticate w).2) = Ok bearer ->
         exists greq gres,
           rest = [Sent greq; Recv greq gres] /\ method greq = GET /\ url greq = u)
    /\ (to_js_string (accessToken (authenticate w).2) = Throw TypeError ->
         rest = [] /\ (m w).1 = Throw TypeError).

(** When the token held after [authenticate] has the text [bearer], a
    call of [m] sends the GET to [u] with the parameters [ps] right
    after authenticating, the remote side answers it, and [holds] is
    true of that answer and of what the call returns. *)
Definition gets_and {A} (m : M A) (u : string) (ps : value)
    (holds : HttpResult -> Result A -> Prop) : Prop :=
  forall w bearer,
    to_js_string (accessToken (authenticate w).2) = Ok bearer ->
    let greq := getRequest u ps bearer in
    let gres := net (trace (authenticate w).2 ++ [Sent greq]) greq in
    trace (m w).2 = trace (authenticate w).2 ++ [Sent greq; Recv greq gres]
    /\ holds gres (m w).1.

(** A failed GET gives [undefined]. *)
Definition absent_on_failure (gres : HttpResult) (r : Result value) : Prop :=
  axios_ok gres = false -> r = Ok VUndefined.

(** A served GET gives what [path] reads from its body, where that can
    be read. *)
Definition body_at (path : value -> Result value) (gres : HttpResult)
    (r : Result value) : Prop :=
  forall st d v, gres = HttpResponse st d -> status_ok st = true ->
                 path d = Ok v -> r = Ok v.

Definition search_url : string := "https://api.spotify.com/v1/search".

Definition search_params (query : string) : value :=
  VObj [("q", VStr query); ("type", VStr "track")].

(** [v == null] *)
Definition nullish (v : value) : bool :=
  match v with
  | VUndefined | VNull => true
  | _ => false
  end.

(** When the token held after [authenticate] has the text [bearer], the
    call [m] sends one GET to [u] with the query parameters [ps], no
    body and the token as its only header. *)
Definition sends_get {A} (m : M A) (u : string) (ps : value) : Prop :=
  forall w bearer,
    to_js_string (accessToken (authenticate w).2) = Ok bearer ->
    exists gres,
      trace (m w).2
      = trace (authenticate w).2
          ++ [Sent (mkRequest GET u [("Authorization", "Bearer " +:+ bearer)]
                      ps VUndefined);
              Recv (mkRequest GET u [("Authorization", "Bearer " +:+ bearer)]
                      ps VUndefined) gres].

(** The call [m] leaves the credentials of the wrapper as they are. *)
Definition keeps_credentials {R} (m : World -> R * World) : Prop :=
  forall w, clientId (m w).2 = clientId w /\ clientSecret (m w).2 = clientSecret w.

Definition with_events (es : list Event) (w : World) : World :=
  mkWorld (clientId w) (clientSecret w) (accessToken w) (trace w ++ es) (console w).

(** *** The fan-out: how far a task is, and what it has seen *)

Definition stage (t : Task) : nat :=
  match t with
  | AwaitAuth _ _ => 0
  | Authed _ => 1
  | AwaitGet _ _ => 2
  | Done _ => 3
  end.

(** The number of tasks that have sent their GET. *)
Definition sent_gets (tasks : list Task) : nat :=
  sum_list (map (fun t => match stage t with O | S O => O | _ => 1%nat end) tasks).

(** The task the fan-out starts for an id. *)
Definition task_of (auth : Request) (id : value) : Task :=
  match to_js_string id with
  | Ok text => AwaitAuth (features_base +:+ text) auth
  | Throw e => Done (Throw e)
  end.

(** The number of ids that have a text. *)
Fixpoint texts_count (ids : list value) : nat :=
  match ids with
  | [] => O
  | id :: rest =>
      match to_js_string id with
      | Ok _ => S (texts_count rest)
      | Throw _ => texts_count rest
      end
  end.

(** The number of leading items whose [item.track.id] can be read and
    has a text. *)
Fixpoint started_before (items : list value) : nat :=
  match items with
  | [] => O
  | item :: rest =>
      match rbind (get_prop item "track") (fun track => get_prop track "id") with
      | Ok id =>
          match to_js_string id with
          | Ok _ => S (started_before rest)
          | Throw _ => started_before rest
          end
      | Throw _ => O
      end
  end.

(** The events one job adds to the trace. *)
Definition step_events (i : nat) (st : list Task * World) : list Event :=
  drop (length (trace st.2)) (trace (deliver i st).2).

(** The events the jobs of task [j] add to the trace during a schedule,
    in order. *)
Fixpoint events_of (j : nat) (sched : list nat) (st : list Task * World) : list Event :=
  match sched with
  | [] => []
  | i :: rest =>
      (if decide (i = j) then step_events i st else [])
        ++ events_of j rest (deliver i st)
  end.

(** The events the jobs of the task of the [j]-th track add during the
    fan-out over [playlist], started in world [w1]. *)
Definition task_events (j : nat) (sched : list nat) (playlist : value) (w1 : World)
    : list Event :=
  match fanout playlist w1 with
  | (Ok tasks, w2) => events_of j sched (tasks, w2)
  | (Throw _, _) => []
  end.

(** What task [j] has seen so far, [E], fits where it is parked, and a
    settled task holds the answer to its own GET, degraded. *)
Definition task_rel (auth : Request) (u : string) (E : list Event) (t : Task) : Prop :=
  match t with
  | AwaitAuth u' areq => u' = u /\ areq = auth /\ E = []
  | Authed u' => u' = u /\ exists ares, E = [Recv auth ares]
  | AwaitGet u' req =>
      u' = u /\ url req = u /\ method req = GET
      /\ exists ares, E = [Recv auth ares; Sent req]
  | Done r =>
      exists ares greq gres history,
        E = [Recv auth ares; Sent greq; Recv greq gres]
        /\ url greq = u /\ method greq = GET
        /\ gres = net history greq
        /\ r = Ok (degrade gres)
  end.

(** Every token the remote side grants has a text. *)
Definition grants_text_tokens : Prop :=
  forall history req st d t,
    url req = tokenUrl ->
    net history req = HttpResponse st d -> status_ok st = true ->
    get_prop d "access_token" = Ok t ->
    has_text t.

(** The token the wrapper holds after the events [d], when it held
    [token] before them: the last one granted in answer to a POST. *)
Fixpoint token_after (token : value) (d : list Event) : value :=
  match d with
  | [] => token
  | Sent _ :: rest => token_after token rest
  | Recv req res :: rest =>
      token_after
        (match method req, settle res with
         | POST, Ok body =>
             match get_prop body "access_token" with
             | Ok t => t
             | Throw _ => token
             end
         | _, _ => token
         end) rest
  end.

(** Every GET in [d] carries the text of the token the wrapper holds at
    that point: the last one granted before it, whichever task it was
    granted to. *)
Definition gets_carry_last_token (token : value) (d : list Event) : Prop :=
  forall p greq,
    d !! p = Some (Sent greq) -> method greq = GET ->
    exists bearer,
      to_js_string (token_after token (take p d)) = Ok bearer
      /\ headers greq = [("Authorization", "Bearer " +:+ bearer)].


(** A parked task waits for the answer to a POST while it authenticates
    and to a GET afterwards. *)
Definition task_methods (t : Task) : Prop :=
  match t with
  | AwaitAuth _ areq => method areq = POST
  | AwaitGet _ req => method req = GET
  | _ => True
  end.

(** ** Lemmas on the pieces *)

Ltac unfold_m :=
  unfold bind, try_catch, lift, ret, throw, get_accessToken, set_accessToken,
    console_error, send, await, authenticate_send in *.

Lemma settle_ok res d : settle res = Ok d -> axios_ok res = true.
Proof.
  destruct res as [|st d']; simpl; [discriminate|].
  destruct (status_ok st); [reflexivity | discriminate].
Qed.

Lemma settle_failed res : axios_ok res = false -> settle res = Throw (AxiosError res).
Proof.
  destruct res as [|st d]; simpl; [reflexivity|].
  intros ->. reflexivity.
Qed.

Lemma settle_response st d : status_ok st = true -> settle (HttpResponse st d) = Ok d.
Proof. simpl. intros ->. reflexivity. Qed.

Lemma degrade_failed res : axios_ok res = false -> degrade res = VUndefined.
Proof. intros H. unfold degrade. rewrite (settle_failed _ H). reflexivity. Qed.

Lemma degrade_response st d : status_ok st = true -> degrade (HttpResponse st d) = d.
Proof. intros H. unfold degrade. rewrite (settle_response _ _ H). reflexivity. Qed.

Lemma count_events_app p t1 t2 :
  count_events p (t1 ++ t2) = (count_events p t1 + count_events p t2)%nat.
Proof. unfold count_events. rewrite filter_app, length_app. reflexivity. Qed.

(** A template literal throws nothing but a [TypeError]. *)
Lemma to_js_string_error : forall v e, to_js_string v = Throw e -> e = TypeError.
Proof.
  fix IH 1. intros v e. destruct v as [ | |b|q|s|elems|props]; simpl.
  - discriminate.
  - discriminate.
  - destruct b; discriminate.
  - discriminate.
  - discriminate.
  - match goal with |- ?j elems = _ -> _ => set (join := j) end.
    revert e. revert elems. fix IHl 1. intros [|x rest] e; [discriminate|].
    pose proof (IH x) as Hx0. pose proof (IHl rest) as IHrest. clear IH IHl.
    assert (Hx : forall e', match x with
                            | VUndefined | VNull => Ok ""
                            | _ => to_js_string x
                            end = Throw e' -> e' = TypeError).
    { intros e'. destruct x; try discriminate; apply Hx0. }
    assert (Hstep : join (x :: rest)
                    = rbind (match x with
                             | VUndefined | VNull => Ok ""
                             | _ => to_js_string x
                             end) (fun sx =>
                      match rest with
                      | [] => Ok sx
                      | _ :: _ => rbind (join rest) (fun sr => Ok (sx +:+ "," +:+ sr))
                      end)) by reflexivity.
    rewrite Hstep. clear Hstep.
    destruct (match x with VUndefined | VNull => Ok "" | _ => to_js_string x end)
      as [sx|ex] eqn:Hhead; cbn [rbind].
    + destruct rest as [|y rest']; [discriminate|].
      destruct (join (y :: rest')) as [sr|er] eqn:Hj; cbn [rbind]; [discriminate|].
      intros [= <-]. apply IHrest. reflexivity.
    + intros [= <-]. apply Hx. reflexivity.
  - destruct (has_own props "toString"); [|discriminate]. congruence.
Qed.

Lemma has_text_or_not v : has_text v \/ to_js_string v = Throw TypeError.
Proof.
  destruct (to_js_string v) as [text|e] eqn:H.
  - left. exists text. exact H.
  - right. rewrite (to_js_string_error _ _ H). reflexivity.
Qed.

Lemma authenticate_resume_eq res w :
  authenticate_resume res w
  = (Ok tt,
     match settle res with
     | Ok d =>
         match get_prop d "access_token" with
         | Ok t => with_accessToken t w
         | Throw e => with_console "Failed to authenticate with Spotify API" e w
         end
     | Throw e => with_console "Failed to authenticate with Spotify API" e w
     end).
Proof.
  unfold authenticate_resume. unfold_m.
  destruct (settle res) as [d|e]; [|reflexivity].
  destruct (get_prop d "access_token"); reflexivity.
Qed.

(** [authenticate], once answered, never throws and leaves the trace
    alone; the token changes only when the answer carries one. *)
Lemma authenticate_resume_run res w :
  exists w', authenticate_resume res w = (Ok tt, w')
    /\ trace w' = trace w
    /\ clientId w' = clientId w /\ clientSecret w' = clientSecret w
    /\ (axios_ok res = false -> accessToken w' = accessToken w)
    /\ (forall d t, settle res = Ok d -> get_prop d "access_token" = Ok t ->
          accessToken w' = t).
Proof.
  rewrite authenticate_resume_eq. eexists. split; [reflexivity|].
  destruct (settle res) as [d|e] eqn:Hs.
  - destruct (get_prop d "access_token") as [t|e] eqn:Hp; simpl; repeat split.
    + intros Hf. apply settle_ok in Hs. congruence.
    + intros d' t' [= <-]. congruence.
    + intros d' t' [= <-]. congruence.
  - simpl. repeat split. intros d' t'. discriminate.
Qed.

Lemma authenticate_eq w :
  let req := authRequest w in
  let res := net (trace w ++ [Sent req]) req in
  authenticate w
  = authenticate_resume res (with_event (Recv req res) (with_event (Sent req) w)).
Proof. reflexivity. Qed.

Lemma authenticate_run w :
  let req := authRequest w in
  let res := net (trace w ++ [Sent req]) req in
  exists w', authenticate w = (Ok tt, w')
    /\ trace w' = trace w ++ [Sent req; Recv req res]
    /\ clientId w' = clientId w /\ clientSecret w' = clientSecret w
    /\ (axios_ok res = false -> accessToken w' = accessToken w)
    /\ (forall d t, settle res = Ok d -> get_prop d "access_token" = Ok t ->
          accessToken w' = t).
Proof.
  intros req res. rewrite authenticate_eq. fold req res.
  destruct (authenticate_resume_run res
              (with_event (Recv req res) (with_event (Sent req) w)))
    as (w' & Hrun & Htr & Hid & Hsec & Hfail & Hok).
  exists w'. rewrite Hrun.
  split; [reflexivity|]. rewrite Htr. simpl.
  rewrite <- app_assoc. simpl. auto.
Qed.

Lemma authenticate_ok w : authenticate w = (Ok tt, (authenticate w).2).
Proof. destruct (authenticate_run w) as (w' & -> & _). reflexivity. Qed.

Lemma makeRequest_resume_eq u res w :
  makeRequest_resume u res w
  = (Ok (degrade res),
     match settle res with
     | Ok _ => w
     | Throw e => with_console ("Failed to fetch from Spotify API: " +:+ u) e w
     end).
Proof.
  unfold makeRequest_resume, degrade. unfold_m.
  destruct (settle res); reflexivity.
Qed.

(** [makeRequest] when the token held after [authenticate] has a text:
    it never throws, and what it returns is the answer to its GET,
    degraded. *)
Lemma makeRequest_text u ps w bearer :
  to_js_string (accessToken (authenticate w).2) = Ok bearer ->
  let w1 := (authenticate w).2 in
  let greq := getRequest u ps bearer in
  let gres := net (trace w1 ++ [Sent greq]) greq in
  let w2 := with_event (Recv greq gres) (with_event (Sent greq) w1) in
  makeRequest u ps w
  = (Ok (degrade gres),
     match settle gres with
     | Ok _ => w2
     | Throw e => with_console ("Failed to fetch from Spotify API: " +:+ u) e w2
     end).
Proof.
  intros Htext w1 greq gres w2. subst w2 gres greq w1.
  unfold makeRequest, makeRequest_send.
  unfold bind at 1. rewrite authenticate_ok.
  unfold bind at 1, get_accessToken. unfold bind at 1, lift at 1. rewrite Htext.
  unfold bind at 1, send. unfold bind at 1, ret at 1. unfold bind at 1, await.
  cbv beta zeta. simpl trace. rewrite makeRequest_resume_eq. reflexivity.
Qed.

(** [makeRequest] when that token has no text: it throws where the
    header is built, after [authenticate] and before any GET. *)
Lemma makeRequest_no_text u ps w e :
  to_js_string (accessToken (authenticate w).2) = Throw e ->
  makeRequest u ps w = (Throw e, (authenticate w).2).
Proof.
  intros Htext. unfold makeRequest, makeRequest_send.
  unfold bind at 1. rewrite authenticate_ok.
  unfold bind at 1, get_accessToken. unfold bind at 1, lift at 1. rewrite Htext.
  reflexivity.
Qed.

Lemma makeRequest_throws_type_error u ps w e :
  (makeRequest u ps w).1 = Throw e -> e = TypeError.
Proof.
  destruct (to_js_string (accessToken (authenticate w).2)) as [bearer|e'] eqn:Ht.
  - rewrite (makeRequest_text u ps w bearer Ht). discriminate.
  - rewrite (makeRequest_no_text u ps w e' Ht). simpl. intros [= <-].
    apply (to_js_string_error _ _ Ht).
Qed.

(** A call that returned had a token with a text, and holds it still. *)
Lemma makeRequest_ok_text u ps w v :
  (makeRequest u ps w).1 = Ok v -> has_text (accessToken (makeRequest u ps w).2).
Proof.
  destruct (to_js_string (accessToken (authenticate w).2)) as [bearer|e'] eqn:Ht.
  - intros _. rewrite (makeRequest_text u ps w bearer Ht). cbv zeta.
    exists bearer. destruct (settle _); simpl; exact Ht.
  - rewrite (makeRequest_no_text u ps w e' Ht). discriminate.
Qed.

(** A method that unwraps what [makeRequest] returns sends and receives
    what [makeRequest] does. *)
Lemma unwrap_run u ps (k : value -> Result value) w :
  let m := (d <- makeRequest u ps ;; lift (k d))%M in
  (m w).2 = (makeRequest u ps w).2
  /\ (m w).1 = rbind (makeRequest u ps w).1 k.
Proof.
  unfold_m. destruct (makeRequest u ps w) as [[d|e] w']; simpl; auto.
Qed.

Lemma unwrap_absent u ps (k : value -> Result value) w :
  (makeRequest u ps w).1 = Ok VUndefined ->
  ((d <- makeRequest u ps ;; lift (optional_chain d k))%M w).1 = Ok VUndefined.
Proof.
  intros H. destruct (unwrap_run u ps (fun d => optional_chain d k) w) as [_ ->].
  rewrite H. reflexivity.
Qed.

Lemma getTrackFeatures_text id text :
  to_js_string id = Ok text ->
  getTrackFeatures id = makeRequest (features_base +:+ text) VUndefined.
Proof. intros H. unfold getTrackFeatures. unfold_m. rewrite H. reflexivity. Qed.

Lemma getTrackFeatures_no_text id e w :
  to_js_string id = Throw e -> getTrackFeatures id w = (Throw e, w).
Proof. intros H. unfold getTrackFeatures. unfold_m. rewrite H. reflexivity. Qed.

Lemma makeRequest_gets_and u ps (holds : HttpResult -> Result value -> Prop) :
  (forall gres, holds gres (Ok (degrade gres))) ->
  gets_and (makeRequest u ps) u ps holds.
Proof.
  intros Hholds w bearer Htext. cbv zeta.
  rewrite (makeRequest_text u ps w bearer Htext). cbv zeta. split.
  - destruct (settle _); simpl; rewrite <- app_assoc; reflexivity.
  - apply Hholds.
Qed.

Lemma unwrap_gets_and u ps (k : value -> Result value)
    (holds : HttpResult -> Result value -> Prop) :
  (forall gres, holds gres (k (degrade gres))) ->
  gets_and (d <- makeRequest u ps ;; lift (k d))%M u ps holds.
Proof.
  intros Hholds w bearer Htext. cbv zeta.
  destruct (unwrap_run u ps k w) as [-> ->].
  rewrite (makeRequest_text u ps w bearer Htext). cbv zeta. split.
  - destruct (settle _); simpl; rewrite <- app_assoc; reflexivity.
  - apply Hholds.
Qed.

Lemma optional_chain_defined d (k : value -> Result value) v :
  k d = Ok v -> k VUndefined = Throw TypeError -> k VNull = Throw TypeError ->
  optional_chain d k = Ok v.
Proof.
  intros Hk Hu Hn. destruct d; simpl; try exact Hk; congruence.
Qed.

Lemma makeRequest_authenticates_once u ps :
  authenticates_once_then_gets (makeRequest u ps) u.
Proof.
  intros w.
  destruct (authenticate_run w) as (w1 & Ha & Htr1 & _).
  assert (Hw1 : (authenticate w).2 = w1) by (rewrite Ha; reflexivity).
  destruct (to_js_string (accessToken w1)) as [bearer|e] eqn:Ht.
  - exists [Sent (getRequest u ps bearer);
            Recv (getRequest u ps bearer)
              (net (trace w1 ++ [Sent (getRequest u ps bearer)]) (getRequest u ps bearer))].
    cbv zeta. rewrite Hw1, Ht.
    assert (Htr : trace (makeRequest u ps w).2
                  = trace w
                      ++ [Sent (authRequest w);
                          Recv (authRequest w)
                            (net (trace w ++ [Sent (authRequest w)]) (authRequest w))]
                      ++ [Sent (getRequest u ps bearer);
                          Recv (getRequest u ps bearer)
                            (net (trace w1 ++ [Sent (getRequest u ps bearer)])
                               (getRequest u ps bearer))]).
    { rewrite (makeRequest_text u ps w bearer) by (rewrite Hw1; exact Ht).
      cbv zeta. rewrite Hw1.
      destruct (settle _); simpl; rewrite Htr1, <- !app_assoc; reflexivity. }
    split; [exact Htr|]. split.
    + rewrite Htr, count_events_app. unfold count_events at 2. simpl. lia.
    + split; [|discriminate].
      intros bearer' [= <-]. eexists _, _. split; [reflexivity|]. split; reflexivity.
  - exists []. cbv zeta. rewrite Hw1, Ht.
    pose proof (to_js_string_error _ _ Ht) as ->.
    rewrite (makeRequest_no_text u ps w TypeError) by (rewrite Hw1; exact Ht).
    rewrite Hw1. simpl. rewrite Htr1, ?app_nil_r.
    split; [reflexivity|]. split.
    + rewrite count_events_app. unfold count_events at 2. simpl. lia.
    + split; [discriminate|]. intros _. split; reflexivity.
Qed.

Lemma unwrap_authenticates_once u ps (k : value -> Result value) :
  authenticates_once_then_gets (d <- makeRequest u ps ;; lift (k d))%M u.
Proof.
  intros w. destruct (makeRequest_authenticates_once u ps w)
    as (rest & Htr & Hc & Htext & Hno).
  exists rest. cbv zeta in *.
  destruct (unwrap_run u ps k w) as [Hw Hr]. cbv zeta in Hw, Hr.
  rewrite Hw. split; [exact Htr|]. split; [exact Hc|]. split; [exact Htext|].
  intros Ht. destruct (Hno Ht) as [-> Hthrow]. split; [reflexivity|].
  rewrite Hr, Hthrow. reflexivity.
Qed.

(** ** The claims on the sequential methods *)

(** C1, as the code has it: when the token held after [authenticate] has
    a text, each read method sends its GET, and when the remote side
    fails that GET, with a status outside 200..299 or with no response,
    the method resolves to [undefined]; it does not throw.  What became
    of the token request does not matter. *)
Theorem read_methods_absent_on_failure :
  (forall u ps, gets_and (makeRequest u ps) u ps absent_on_failure)
  /\ (forall id, gets_and (getPlaylist id)
        ("https://api.spotify.com/v1/playlists/" +:+ id) VUndefined absent_on_failure)
  /\ (forall id, gets_and (getAlbum id)
        ("https://api.spotify.com/v1/albums/" +:+ id) VUndefined absent_on_failure)
  /\ (forall id, gets_and (getArtist id)
        ("https://api.spotify.com/v1/artists/" +:+ id) VUndefined absent_on_failure)
  /\ (forall id, gets_and (getUserProfile id)
        ("https://api.spotify.com/v1/users/" +:+ id) VUndefined absent_on_failure)
  /\ (forall id market, gets_and (getArtistTopTracks id market)
        ("https://api.spotify.com/v1/artists/" +:+ id +:+ "/top-tracks")
        (VObj [("market", VStr market)]) absent_on_failure)
  /\ (forall id, gets_and (getArtistAlbums id)
        ("https://api.spotify.com/v1/artists/" +:+ id +:+ "/albums") VUndefined
        absent_on_failure)
  /\ (forall q, gets_and (searchTracks q) search_url (search_params q) absent_on_failure)
  /\ (forall id text, to_js_string id = Ok text ->
        gets_and (getTrackFeatures id) (features_base +:+ text) VUndefined
          absent_on_failure).
Proof.
  assert (Hplain : forall u ps, gets_and (makeRequest u ps) u ps absent_on_failure).
  { intros u ps. apply makeRequest_gets_and.
    intros gres Hf. rewrite (degrade_failed _ Hf). reflexivity. }
  assert (Hunwrap : forall u ps k,
             gets_and (d <- makeRequest u ps ;; lift (optional_chain d k))%M u ps
               absent_on_failure).
  { intros u ps k. apply unwrap_gets_and.
    intros gres Hf. rewrite (degrade_failed _ Hf). reflexivity. }
  repeat match goal with |- _ /\ _ => split end; intros;
    first [ apply Hplain | apply Hunwrap
          | rewrite (getTrackFeatures_text _ _ ltac:(eassumption)); apply Hplain ].
Qed.

(** C3: every call of [makeRequest], direct or through a read method or
    [getTrackFeatures], sends one token request first, whatever token
    the wrapper holds, and no second one; its GET, when it sends one,
    comes after the answer to the token request. *)
Theorem every_request_authenticates_once :
  (forall u ps, authenticates_once_then_gets (makeRequest u ps) u)
  /\ (forall id, authenticates_once_then_gets (getPlaylist id)
        ("https://api.spotify.com/v1/playlists/" +:+ id))
  /\ (forall id, authenticates_once_then_gets (getAlbum id)
        ("https://api.spotify.com/v1/albums/" +:+ id))
  /\ (forall id, authenticates_once_then_gets (getArtist id)
        ("https://api.spotify.com/v1/artists/" +:+ id))
  /\ (forall id, authenticates_once_then_gets (getUserProfile id)
        ("https://api.spotify.com/v1/users/" +:+ id))
  /\ (forall id market, authenticates_once_then_gets (getArtistTopTracks id market)
        ("https://api.spotify.com/v1/artists/" +:+ id +:+ "/top-tracks"))
  /\ (forall id, authenticates_once_then_gets (getArtistAlbums id)
        ("https://api.spotify.com/v1/artists/" +:+ id +:+ "/albums"))
  /\ (forall q, authenticates_once_then_gets (searchTracks q)
        "https://api.spotify.com/v1/search")
  /\ (forall id text, to_js_string id = Ok text ->
        authenticates_once_then_gets (getTrackFeatures id)
          ("https://api.spotify.com/v1/audio-features/" +:+ text))
  /\ (forall id w, to_js_string id = Throw TypeError ->
        getTrackFeatures id w = (Throw TypeError, w)).
Proof.
  repeat match goal with |- _ /\ _ => split end; intros;
    first [ apply makeRequest_authenticates_once
          | apply unwrap_authenticates_once
          | rewrite (getTrackFeatures_text _ _ ltac:(eassumption));
            apply makeRequest_authenticates_once
          | apply getTrackFeatures_no_text; assumption ].
Qed.

(** C4: each read method sends its GET (when the token held after
    [authenticate] has a text), and when the remote side answers that
    GET 2xx with the body [d], the method returns [d] itself, except
    that [searchTracks] returns [d.tracks.items], [getArtistTopTracks]
    returns [d.tracks] and [getArtistAlbums] returns [d.items]. *)
Theorem read_methods_return_body :
  (forall u ps, gets_and (makeRequest u ps) u ps (body_at Ok))
  /\ (forall id, gets_and (getPlaylist id)
        ("https://api.spotify.com/v1/playlists/" +:+ id) VUndefined (body_at Ok))
  /\ (forall id, gets_and (getAlbum id)
        ("https://api.spotify.com/v1/albums/" +:+ id) VUndefined (body_at Ok))
  /\ (forall id, gets_and (getArtist id)
        ("https://api.spotify.com/v1/artists/" +:+ id) VUndefined (body_at Ok))
  /\ (forall id, gets_and (getUserProfile id)
        ("https://api.spotify.com/v1/users/" +:+ id) VUndefined (body_at Ok))
  /\ (forall id text, to_js_string id = Ok text ->
        gets_and (getTrackFeatures id) (features_base +:+ text) VUndefined (body_at Ok))
  /\ (forall q, gets_and (searchTracks q) search_url (search_params q)
        (body_at (fun d => rbind (get_prop d "tracks") (fun t => get_prop t "items"))))
  /\ (forall id market, gets_and (getArtistTopTracks id market)
        ("https://api.spotify.com/v1/artists/" +:+ id +:+ "/top-tracks")
        (VObj [("market", VStr market)])
        (body_at (fun d => get_prop d "tracks")))
  /\ (forall id, gets_and (getArtistAlbums id)
        ("https://api.spotify.com/v1/artists/" +:+ id +:+ "/albums") VUndefined
        (body_at (fun d => get_prop d "items"))).
Proof.
  assert (Hplain : forall u ps, gets_and (makeRequest u ps) u ps (body_at Ok)).
  { intros u ps. apply makeRequest_gets_and.
    intros gres st d v -> Hst [= <-]. rewrite (degrade_response _ _ Hst). reflexivity. }
  assert (Hunwrap : forall u ps k,
             k VUndefined = Throw TypeError -> k VNull = Throw TypeError ->
             gets_and (d <- makeRequest u ps ;; lift (optional_chain d k))%M u ps
               (body_at k)).
  { intros u ps k Hu Hn. apply unwrap_gets_and.
    intros gres st d v -> Hst Hk. rewrite (degrade_response _ _ Hst).
    apply optional_chain_defined; assumption. }
  repeat match goal with |- _ /\ _ => split end; intros;
    first [ apply Hplain
          | rewrite (getTrackFeatures_text _ _ ltac:(eassumption)); apply Hplain
          | apply Hunwrap; reflexivity ].
Qed.

(** C5: when [makeRequest] yields [undefined], so do [searchTracks],
    [getArtistAlbums] and [getArtistTopTracks]: none of them turns it
    into an empty array. *)
Theorem unwrapping_methods_stay_absent (w : World) :
  (forall q,
     (makeRequest search_url (search_params q) w).1 = Ok VUndefined ->
     (searchTracks q w).1 = Ok VUndefined /\ (searchTracks q w).1 <> Ok (VArr []))
  /\ (forall id,
        (makeRequest ("https://api.spotify.com/v1/artists/" +:+ id +:+ "/albums")
           VUndefined w).1 = Ok VUndefined ->
        (getArtistAlbums id w).1 = Ok VUndefined
        /\ (getArtistAlbums id w).1 <> Ok (VArr []))
  /\ (forall id market,
        (makeRequest ("https://api.spotify.com/v1/artists/" +:+ id +:+ "/top-tracks")
           (VObj [("market", VStr market)]) w).1 = Ok VUndefined ->
        (getArtistTopTracks id market w).1 = Ok VUndefined
        /\ (getArtistTopTracks id market w).1 <> Ok (VArr [])).
Proof.
  assert (Hne : forall r : Result value,
             r = Ok VUndefined -> r = Ok VUndefined /\ r <> Ok (VArr [])).
  { intros r ->. split; [reflexivity | discriminate]. }
  split; [|split]; intros; apply Hne;
    unfold searchTracks, getArtistAlbums, getArtistTopTracks;
    apply unwrap_absent; assumption.
Qed.

(** C7, as the code has it: when the token the wrapper holds has the
    text [bearer], [createPlaylist] sends no token request; it sends one
    POST to the playlists of the user, with the body
    [{name, description, public}] and that token; it returns the body of
    a 2xx answer as it is, and [undefined] after a failure. *)
Theorem createPlaylist_posts_once (w : World) (userId name description : string)
    (publicStatus : bool) (bearer : string) :
  to_js_string (accessToken w) = Ok bearer ->
  let req := createPlaylistRequest userId name description publicStatus bearer in
  let res := net (trace w ++ [Sent req]) req in
  let r := createPlaylist userId name description publicStatus w in
  trace r.2 = trace w ++ [Sent req; Recv req res]
  /\ method req = POST
  /\ url req = "https://api.spotify.com/v1/users/" +:+ userId +:+ "/playlists"
  /\ data req = VObj [("name", VStr name); ("description", VStr description);
                      ("public", VBool publicStatus)]
  /\ headers req = [("Authorization", "Bearer " +:+ bearer);
                    ("Content-Type", "application/json")]
  /\ accessToken r.2 = accessToken w
  /\ count_events (is_post_to tokenUrl) (trace r.2)
     = count_events (is_post_to tokenUrl) (trace w)
  /\ (forall st d, res = HttpResponse st d -> status_ok st = true -> r.1 = Ok d)
  /\ (axios_ok res = false -> r.1 = Ok VUndefined).
Proof.
  intros Htext req res r. subst r. unfold createPlaylist. unfold_m.
  rewrite Htext. simpl. fold req. fold res.
  assert (Hc : count_events (is_post_to tokenUrl)
                 ((trace w ++ [Sent req]) ++ [Recv req res])
               = count_events (is_post_to tokenUrl) (trace w)).
  { rewrite <- app_assoc, count_events_app. unfold count_events at 2. simpl. lia. }
  destruct (settle res) as [d|e] eqn:Hs; simpl;
    rewrite <- app_assoc; simpl; rewrite <- app_assoc in Hc; simpl in Hc;
    repeat split; auto.
  - intros st d' -> Hst. rewrite (settle_response _ _ Hst) in Hs. congruence.
  - intros Hf. apply settle_ok in Hs. congruence.
  - intros st d' -> Hst. rewrite (settle_response _ _ Hst) in Hs. discriminate.
Qed.

(** C8, as the code has it: when the token the wrapper holds has the
    text [bearer], [addTracksToPlaylist] sends no token request; it
    sends one POST to the tracks of the playlist, with the body
    [{uris: trackUris}] and that token; it resolves to no value,
    whatever the answer. *)
Theorem addTracksToPlaylist_posts_once (w : World) (playlistId : string)
    (trackUris : list string) (bearer : string) :
  to_js_string (accessToken w) = Ok bearer ->
  let req := addTracksRequest playlistId trackUris bearer in
  let res := net (trace w ++ [Sent req]) req in
  let r := addTracksToPlaylist playlistId trackUris w in
  r.1 = Ok tt
  /\ trace r.2 = trace w ++ [Sent req; Recv req res]
  /\ method req = POST
  /\ url req = "https://api.spotify.com/v1/playlists/" +:+ playlistId +:+ "/tracks"
  /\ data req = VObj [("uris", VArr (map VStr trackUris))]
  /\ headers req = [("Authorization", "Bearer " +:+ bearer);
                    ("Content-Type", "application/json")]
  /\ accessToken r.2 = accessToken w
  /\ count_events (is_post_to tokenUrl) (trace r.2)
     = count_events (is_post_to tokenUrl) (trace w).
Proof.
  intros Htext req res r. subst r. unfold addTracksToPlaylist. unfold_m.
  rewrite Htext. simpl. fold req. fold res.
  assert (Hc : count_events (is_post_to tokenUrl)
                 ((trace w ++ [Sent req]) ++ [Recv req res])
               = count_events (is_post_to tokenUrl) (trace w)).
  { rewrite <- app_assoc, count_events_app. unfold count_events at 2. simpl. lia. }
  destruct (settle res) as [d|e] eqn:Hs; simpl;
    rewrite <- app_assoc; simpl; rewrite <- app_assoc in Hc; simpl in Hc;
    repeat split; auto.
Qed.

(** C9: [authenticate] never reports an error to its caller; after a
    failed token request the wrapper holds the token it held before,
    after a 2xx answer it holds the [access_token] of the answer. *)
Theorem authenticate_keeps_token_on_failure (w : World) :
  let req := authRequest w in
  let res := net (trace w ++ [Sent req]) req in
  (authenticate w).1 = Ok tt
  /\ trace (authenticate w).2 = trace w ++ [Sent req; Recv req res]
  /\ (axios_ok res = false -> accessToken (authenticate w).2 = accessToken w)
  /\ (forall st d t, res = HttpResponse st d -> status_ok st = true ->
        get_prop d "access_token" = Ok t -> accessToken (authenticate w).2 = t).
Proof.
  intros req res.
  destruct (authenticate_run w) as (w' & Hrun & Htr & _ & _ & Hfail & Hok).
  rewrite Hrun. simpl. repeat split; auto.
  intros st d t Hres Hst Hp. apply (Hok d t); [|exact Hp].
  fold req res. rewrite Hres. apply settle_response, Hst.
Qed.

(** ** Further properties of the sequential methods *)

Lemma get_prop_nullish d key :
  nullish d = true -> get_prop d key = Throw TypeError.
Proof. destruct d; simpl; intros; congruence. Qed.

Lemma get_prop_defined d key :
  nullish d = false ->
  get_prop d key
  = Ok (match d with VObj props => obj_lookup props key | _ => VUndefined end).
Proof. destruct d; simpl; intros; congruence. Qed.

Lemma makeRequest_throws_iff u ps w e :
  (makeRequest u ps w).1 = Throw e
  <-> e = TypeError /\ to_js_string (accessToken (authenticate w).2) = Throw TypeError.
Proof.
  destruct (to_js_string (accessToken (authenticate w).2)) as [bearer|e'] eqn:Ht.
  - rewrite (makeRequest_text u ps w bearer Ht). cbv zeta. simpl.
    split; [discriminate|]. intros [_ H]. discriminate.
  - pose proof (to_js_string_error _ _ Ht) as ->.
    rewrite (makeRequest_no_text u ps w TypeError Ht). simpl.
    split; [intros [= <-]; auto | intros [-> _]; reflexivity].
Qed.

Lemma unwrap_one_throws_iff u ps key w e :
  ((d <- makeRequest u ps ;;
    lift (optional_chain d (fun d => get_prop d key)))%M w).1 = Throw e
  <-> e = TypeError /\ to_js_string (accessToken (authenticate w).2) = Throw TypeError.
Proof.
  destruct (unwrap_run u ps (fun d => optional_chain d (fun d => get_prop d key)) w)
    as [_ ->].
  rewrite <- makeRequest_throws_iff with (u := u) (ps := ps).
  destruct (makeRequest u ps w).1 as [d|e'] eqn:Hr; simpl; [|reflexivity].
  split; [|discriminate]. destruct d; simpl; discriminate.
Qed.

(** X1: [makeRequest], the methods that return its result as it is and
    the two that read one property of it throw in one case only: the
    token held after [authenticate] has no text, so that the header
    cannot be built; what they throw is a [TypeError].
    [getTrackFeatures] throws in that case and when the id has no
    text. *)
Theorem plain_read_methods_throw_iff (w : World) (e : error) :
  let no_bearer :=
    e = TypeError /\ to_js_string (accessToken (authenticate w).2) = Throw TypeError in
  (forall u ps, (makeRequest u ps w).1 = Throw e <-> no_bearer)
  /\ (forall id, (getPlaylist id w).1 = Throw e <-> no_bearer)
  /\ (forall id, (getAlbum id w).1 = Throw e <-> no_bearer)
  /\ (forall id, (getArtist id w).1 = Throw e <-> no_bearer)
  /\ (forall id, (getUserProfile id w).1 = Throw e <-> no_bearer)
  /\ (forall id market, (getArtistTopTracks id market w).1 = Throw e <-> no_bearer)
  /\ (forall id, (getArtistAlbums id w).1 = Throw e <-> no_bearer)
  /\ (forall id, (getTrackFeatures id w).1 = Throw e
        <-> e = TypeError
            /\ (to_js_string id = Throw TypeError
                \/ has_text id
                   /\ to_js_string (accessToken (authenticate w).2) = Throw TypeError)).
Proof.
  intros no_bearer. subst no_bearer.
  repeat match goal with |- _ /\ _ => split end; intros;
    try (first [ apply makeRequest_throws_iff | apply unwrap_one_throws_iff ]).
  destruct (to_js_string id) as [text|e'] eqn:Hid.
  - rewrite (getTrackFeatures_text id text Hid), makeRequest_throws_iff.
    split.
    + intros [-> Ht]. split; [reflexivity|]. right. split; [exists text|]; assumption.
    + intros [-> [Hno|[_ Ht]]]; [discriminate | auto].
  - pose proof (to_js_string_error _ _ Hid) as ->.
    rewrite (getTrackFeatures_no_text id TypeError w Hid). simpl.
    split; [intros [= <-]; auto | intros [-> _]; reflexivity].
Qed.

(** X2: [searchTracks] throws in two cases only, and then a
    [TypeError]: the token held after [authenticate] has no text; or its
    GET is answered 2xx with a body that is neither [null] nor
    [undefined] and whose [tracks] is [null] or [undefined]. *)
Theorem searchTracks_throws_iff (w : World) (q : string) (e : error) :
  (searchTracks q w).1 = Throw e
  <-> e = TypeError
      /\ (to_js_string (accessToken (authenticate w).2) = Throw TypeError
          \/ exists bearer st d tracks,
               to_js_string (accessToken (authenticate w).2) = Ok bearer
               /\ net (trace (authenticate w).2
                         ++ [Sent (getRequest search_url (search_params q) bearer)])
                    (getRequest search_url (search_params q) bearer)
                  = HttpResponse st d
               /\ status_ok st = true
               /\ nullish d = false
               /\ get_prop d "tracks" = Ok tracks /\ nullish tracks = true).
Proof.
  assert (Hr : (searchTracks q w).1
               = rbind (makeRequest search_url (search_params q) w).1
                   (fun d => optional_chain d
                      (fun d => rbind (get_prop d "tracks") (fun t => get_prop t "items"))))
    by apply (proj2 (unwrap_run search_url (search_params q) _ w)).
  rewrite Hr. clear Hr.
  destruct (to_js_string (accessToken (authenticate w).2)) as [bearer|e'] eqn:Ht.
  - rewrite (makeRequest_text _ _ w bearer Ht). cbv zeta. simpl.
    set (gres := net _ _).
    assert (Hshape : forall P : Prop,
               (e = TypeError /\ exists st d tracks,
                   gres = HttpResponse st d /\ status_ok st = true
                   /\ nullish d = false
                   /\ get_prop d "tracks" = Ok tracks /\ nullish tracks = true)
               <-> P ->
               (e = TypeError /\
                (Ok bearer = Throw TypeError
                 \/ exists bearer0 st d tracks,
                      Ok bearer = Ok bearer0
                      /\ net (trace (authenticate w).2
                                ++ [Sent (getRequest search_url (search_params q) bearer0)])
                           (getRequest search_url (search_params q) bearer0)
                         = HttpResponse st d
                      /\ status_ok st = true /\ nullish d = false
                      /\ get_prop d "tracks" = Ok tracks /\ nullish tracks = true))
               <-> P).
    { intros P HP. rewrite <- HP. split.
      - intros [He [Hno|(b & st & d & t & [= <-] & Hres & Hrest)]]; [discriminate|].
        split; [exact He|]. exists st, d, t. auto.
      - intros [He (st & d & t & Hres & Hrest)]. split; [exact He|]. right.
        exists bearer, st, d, t. auto. }
    symmetry. apply Hshape. clear Hshape. symmetry.
    destruct gres as [|st d].
    + simpl. split; [discriminate|]. intros (_ & st & d & t & Hres & _). discriminate.
    + unfold degrade. simpl. destruct (status_ok st) eqn:Hst.
      * destruct (nullish d) eqn:Hd.
        -- destruct d; try discriminate; simpl;
             (split; [discriminate|]);
             intros (_ & st' & d' & t & [= <- <-] & _ & Hn & _); discriminate.
        -- assert (Hoc : forall k, optional_chain d k = k d)
             by (destruct d; try discriminate; reflexivity).
           rewrite Hoc, (get_prop_defined _ "tracks" Hd). simpl.
           set (t := match d with
                     | VObj props => obj_lookup props "tracks"
                     | _ => VUndefined
                     end).
           destruct (nullish t) eqn:Htn.
           ++ rewrite (get_prop_nullish _ "items" Htn). split.
              ** intros [= <-]. split; [reflexivity|].
                 exists st, d, t. rewrite (get_prop_defined _ "tracks" Hd). auto.
              ** intros (-> & _). reflexivity.
           ++ rewrite (get_prop_defined _ "items" Htn). split; [discriminate|].
              intros (_ & st' & d' & t' & [= <- <-] & _ & _ & Hp & Hn).
              rewrite (get_prop_defined _ "tracks" Hd) in Hp. injection Hp as <-.
              fold t in Hn. congruence.
      * simpl. split; [discriminate|].
        intros (_ & st' & d' & t & [= <- <-] & Hs & _). congruence.
  - pose proof (to_js_string_error _ _ Ht) as ->.
    rewrite (makeRequest_no_text _ _ w TypeError Ht). simpl.
    split; [intros [= <-]; auto | intros [-> _]; reflexivity].
Qed.

(** X3: the token after a 2xx answer to the token request: kept when
    the body is [null] or [undefined]; otherwise replaced by the
    [access_token] of the body, which is [undefined] when the body has
    none. *)
Theorem authenticate_token_after_answer (w : World) :
  let req := authRequest w in
  let res := net (trace w ++ [Sent req]) req in
  forall st d, res = HttpResponse st d -> status_ok st = true ->
    accessToken (authenticate w).2
    = if nullish d then accessToken w
      else match d with
           | VObj props => obj_lookup props "access_token"
           | _ => VUndefined
           end.
Proof.
  intros req res st d Hres Hst.
  rewrite authenticate_eq, authenticate_resume_eq. fold req res.
  rewrite Hres, (settle_response _ _ Hst). simpl snd.
  destruct (nullish d) eqn:Hd.
  - rewrite (get_prop_nullish _ _ Hd). reflexivity.
  - rewrite (get_prop_defined _ _ Hd). reflexivity.
Qed.

(** X4: [authenticate] writes one line to the error channel when the
    token request fails, and one when a 2xx answer has the body [null]
    or [undefined]; otherwise it writes none. *)
Theorem authenticate_logs (w : World) :
  let req := authRequest w in
  let res := net (trace w ++ [Sent req]) req in
  let msg := "Failed to authenticate with Spotify API" in
  (axios_ok res = false ->
   console (authenticate w).2 = console w ++ [(msg, AxiosError res)])
  /\ (forall st d, res = HttpResponse st d -> status_ok st = true ->
        console (authenticate w).2
        = console w ++ (if nullish d then [(msg, TypeError)] else [])).
Proof.
  intros req res msg.
  rewrite authenticate_eq, authenticate_resume_eq. fold req res. split.
  - intros Hf. rewrite (settle_failed _ Hf). reflexivity.
  - intros st d Hres Hst. rewrite Hres, (settle_response _ _ Hst). simpl snd.
    destruct (nullish d) eqn:Hd.
    + rewrite (get_prop_nullish _ _ Hd). reflexivity.
    + rewrite (get_prop_defined _ _ Hd). simpl. rewrite app_nil_r. reflexivity.
Qed.


Lemma makeRequest_sends_get u ps : sends_get (makeRequest u ps) u ps.
Proof.
  intros w bearer Ht. rewrite (makeRequest_text u ps w bearer Ht). cbv zeta.
  eexists. destruct (settle _); simpl; rewrite <- app_assoc; reflexivity.
Qed.

Lemma unwrap_sends_get u ps (k : value -> Result value) :
  sends_get (d <- makeRequest u ps ;; lift (k d))%M u ps.
Proof.
  intros w bearer Ht. destruct (unwrap_run u ps k w) as [-> _].
  apply makeRequest_sends_get, Ht.
Qed.

(** X6: the GET of each read method, sent when the token held after
    [authenticate] has a text: its URL, its query parameters ([q] and
    [type=track] for the search, [market] for the top tracks, none for
    the others), no body, and the bearer token as its only header. *)
Theorem read_methods_requests :
  (forall id, sends_get (getPlaylist id)
     ("https://api.spotify.com/v1/playlists/" +:+ id) VUndefined)
  /\ (forall id, sends_get (getAlbum id)
        ("https://api.spotify.com/v1/albums/" +:+ id) VUndefined)
  /\ (forall id, sends_get (getArtist id)
        ("https://api.spotify.com/v1/artists/" +:+ id) VUndefined)
  /\ (forall id, sends_get (getUserProfile id)
        ("https://api.spotify.com/v1/users/" +:+ id) VUndefined)
  /\ (forall id text, to_js_string id = Ok text ->
        sends_get (getTrackFeatures id)
          ("https://api.spotify.com/v1/audio-features/" +:+ text) VUndefined)
  /\ (forall q, sends_get (searchTracks q)
        "https://api.spotify.com/v1/search"
        (VObj [("q", VStr q); ("type", VStr "track")]))
  /\ (forall id market, sends_get (getArtistTopTracks id market)
        ("https://api.spotify.com/v1/artists/" +:+ id +:+ "/top-tracks")
        (VObj [("market", VStr market)]))
  /\ (forall id, sends_get (getArtistAlbums id)
        ("https://api.spotify.com/v1/artists/" +:+ id +:+ "/albums") VUndefined).
Proof.
  repeat match goal with |- _ /\ _ => split end; intros;
    first [ apply makeRequest_sends_get | apply unwrap_sends_get
          | rewrite (getTrackFeatures_text _ _ ltac:(eassumption));
            apply makeRequest_sends_get ].
Qed.

(** X7: [makeRequest] writes one line to the error channel, naming the
    URL, when its GET fails, and none when the GET is answered 2xx. *)
Theorem makeRequest_logs (w : World) (u : string) (ps : value) (res : HttpResult) :
  answered_with (makeRequest u ps) w res ->
  console (makeRequest u ps w).2
  = console (authenticate w).2
      ++ (if axios_ok res then []
          else [("Failed to fetch from Spotify API: " +:+ u, AxiosError res)]).
Proof.
  intros (t & req & Htr & Hm).
  destruct (to_js_string (accessToken (authenticate w).2)) as [bearer|e] eqn:Ht.
  - rewrite (makeRequest_text u ps w bearer Ht) in *. cbv zeta in *.
    set (greq := getRequest u ps bearer) in *.
    set (gres := net (trace (authenticate w).2 ++ [Sent greq]) greq) in *.
    assert (Hres : gres = res).
    { assert (Htr' : (trace (authenticate w).2 ++ [Sent greq]) ++ [Recv greq gres]
                     = (t ++ [Sent req]) ++ [Recv req res]).
      { rewrite <- (app_assoc t). simpl. rewrite <- Htr.
        destruct (settle gres); simpl; rewrite <- app_assoc; reflexivity. }
      apply app_inj_tail in Htr' as [_ Heq]. congruence. }
    rewrite Hres. destruct (axios_ok res) eqn:Hok.
    + destruct res as [|st d]; [discriminate|]. simpl in Hok.
      rewrite (settle_response _ _ Hok). simpl. rewrite app_nil_r. reflexivity.
    + rewrite (settle_failed _ Hok). reflexivity.
  - exfalso. rewrite (makeRequest_no_text u ps w e Ht) in Htr. simpl in Htr.
    destruct (authenticate_run w) as (w1 & Ha & Htr1 & _).
    rewrite Ha in Htr. simpl in Htr. rewrite Htr1 in Htr.
    change [Sent req; Recv req res] with ([Sent req] ++ [Recv req res]) in Htr.
    change [Sent (authRequest w);
            Recv (authRequest w) (net (trace w ++ [Sent (authRequest w)]) (authRequest w))]
      with ([Sent (authRequest w)]
              ++ [Recv (authRequest w)
                    (net (trace w ++ [Sent (authRequest w)]) (authRequest w))]) in Htr.
    rewrite !app_assoc in Htr.
    apply app_inj_tail in Htr as [_ Heq]. injection Heq as <- _. discriminate.
Qed.

(** X8: when the token held has a text, [createPlaylist] and
    [addTracksToPlaylist] write one line to the error channel when their
    POST fails, and none when it is answered 2xx; when the token has no
    text they throw a [TypeError] before they send or write
    anything. *)
Theorem mutations_log (w : World) :
  (forall bearer, to_js_string (accessToken w) = Ok bearer ->
     (forall userId name description publicStatus,
        let req := createPlaylistRequest userId name description publicStatus bearer in
        let res := net (trace w ++ [Sent req]) req in
        console (createPlaylist userId name description publicStatus w).2
        = console w ++ (if axios_ok res then []
                        else [("Failed to create playlist", AxiosError res)]))
     /\ (forall playlistId trackUris,
           let req := addTracksRequest playlistId trackUris bearer in
           let res := net (trace w ++ [Sent req]) req in
           console (addTracksToPlaylist playlistId trackUris w).2
           = console w ++ (if axios_ok res then []
                           else [("Failed to add tracks to playlist", AxiosError res)])))
  /\ (to_js_string (accessToken w) = Throw TypeError ->
      (forall userId name description publicStatus,
         createPlaylist userId name description publicStatus w = (Throw TypeError, w))
      /\ (forall playlistId trackUris,
            addTracksToPlaylist playlistId trackUris w = (Throw TypeError, w))).
Proof.
  split.
  - intros bearer Ht. split; intros; subst req res;
      unfold createPlaylist, addTracksToPlaylist; unfold_m; rewrite Ht; simpl;
      match goal with
      | |- context [settle ?r] =>
          destruct (axios_ok r) eqn:Hok;
          [ destruct r as [|st d] eqn:Hr; [discriminate|]; simpl in Hok;
            rewrite <- Hr, Hr, (settle_response _ _ Hok); simpl;
            rewrite app_nil_r; reflexivity
          | rewrite (settle_failed _ Hok); reflexivity ]
      end.
  - intros Ht. split; intros;
      unfold createPlaylist, addTracksToPlaylist; unfold_m; rewrite Ht; reflexivity.
Qed.

(** ** The mutations and the token *)

Lemma createPlaylist_trace userId name description publicStatus w bearer :
  to_js_string (accessToken w) = Ok bearer ->
  let req := createPlaylistRequest userId name description publicStatus bearer in
  exists res,
    trace (createPlaylist userId name description publicStatus w).2
    = trace w ++ [Sent req; Recv req res].
Proof.
  intros Ht req. exists (net (trace w ++ [Sent req]) req).
  unfold createPlaylist. unfold_m. rewrite Ht. simpl. fold req.
  destruct (settle _); simpl; rewrite <- app_assoc; reflexivity.
Qed.

Lemma addTracksToPlaylist_trace playlistId trackUris w bearer :
  to_js_string (accessToken w) = Ok bearer ->
  let req := addTracksRequest playlistId trackUris bearer in
  exists res,
    trace (addTracksToPlaylist playlistId trackUris w).2
    = trace w ++ [Sent req; Recv req res].
Proof.
  intros Ht req. exists (net (trace w ++ [Sent req]) req).
  unfold addTracksToPlaylist. unfold_m. rewrite Ht. simpl. fold req.
  destruct (settle _); simpl; rewrite <- app_assoc; reflexivity.
Qed.

(** X15: on a wrapper that has made no request yet, a mutation is the
    first thing on the wire and its authorization header is the text
    [Bearer null]. *)
Theorem mutations_on_fresh_wrapper (id secret : string) :
  let w := constructor id secret in
  (forall userId name description publicStatus,
     exists res,
       let req :=
         mkRequest POST ("https://api.spotify.com/v1/users/" +:+ userId +:+ "/playlists")
           [("Authorization", "Bearer null"); ("Content-Type", "application/json")]
           VUndefined
           (VObj [("name", VStr name); ("description", VStr description);
                  ("public", VBool publicStatus)]) in
       trace (createPlaylist userId name description publicStatus w).2
       = [Sent req; Recv req res])
  /\ (forall playlistId trackUris,
        exists res,
          let req :=
            mkRequest POST
              ("https://api.spotify.com/v1/playlists/" +:+ playlistId +:+ "/tracks")
              [("Authorization", "Bearer null"); ("Content-Type", "application/json")]
              VUndefined
              (VObj [("uris", VArr (map VStr trackUris))]) in
          trace (addTracksToPlaylist playlistId trackUris w).2
          = [Sent req; Recv req res]).
Proof.
  intros w. split; intros.
  - destruct (createPlaylist_trace userId name description publicStatus w "null" eq_refl)
      as (res & Htr).
    exists res. exact Htr.
  - destruct (addTracksToPlaylist_trace playlistId trackUris w "null" eq_refl)
      as (res & Htr).
    exists res. exact Htr.
Qed.

(** X16: after a read whose token request was granted a token [t] with
    the text [bearer], a mutation is sent with that token, although it
    asks for no token itself. *)
Theorem mutations_carry_token_of_last_read (w : World) (u : string) (ps : value)
    (st : Z) (d t : value) (bearer : string) :
  let areq := authRequest w in
  let ares := net (trace w ++ [Sent areq]) areq in
  ares = HttpResponse st d -> status_ok st = true ->
  get_prop d "access_token" = Ok t ->
  to_js_string t = Ok bearer ->
  let w1 := (makeRequest u ps w).2 in
  (forall userId name description publicStatus,
     exists res,
       trace (createPlaylist userId name description publicStatus w1).2
       = trace w1
           ++ [Sent (createPlaylistRequest userId name description publicStatus bearer);
               Recv (createPlaylistRequest userId name description publicStatus bearer)
                 res])
  /\ (forall playlistId trackUris,
        exists res,
          trace (addTracksToPlaylist playlistId trackUris w1).2
          = trace w1
              ++ [Sent (addTracksRequest playlistId trackUris bearer);
                  Recv (addTracksRequest playlistId trackUris bearer) res]).
Proof.
  intros areq ares Hres Hst Hp Htext w1.
  assert (Htok : accessToken w1 = t).
  { assert (Hwa : accessToken (authenticate w).2 = t).
    { destruct (authenticate_run w) as (wa & Ha & _ & _ & _ & _ & Hok).
      rewrite Ha. simpl. apply (Hok d t); [|exact Hp].
      fold areq ares. rewrite Hres. apply settle_response, Hst. }
    unfold w1. rewrite (makeRequest_text u ps w bearer) by (rewrite Hwa; exact Htext).
    cbv zeta. destruct (settle _); simpl; exact Hwa. }
  assert (Hb : to_js_string (accessToken w1) = Ok bearer) by (rewrite Htok; exact Htext).
  split; intros.
  - exact (createPlaylist_trace userId name description publicStatus w1 bearer Hb).
  - exact (addTracksToPlaylist_trace playlistId trackUris w1 bearer Hb).
Qed.

(** ** The fan-out *)

Lemma prefix_append (s t : string) : String.prefix s (s +:+ t) = true.
Proof.
  induction s as [|c s IH]; simpl.
  - destruct t; reflexivity.
  - destruct (Ascii.ascii_dec c c) as [_|Hne]; [exact IH | contradiction].
Qed.

Lemma with_events_nil w : with_events [] w = w.
Proof. destruct w. unfold with_events. simpl. rewrite app_nil_r. reflexivity. Qed.

Lemma lookup_map {A B} (f : A -> B) (l : list A) i x :
  l !! i = Some x -> map f l !! i = Some (f x).
Proof.
  revert i. induction l as [|a l IH]; intros [|i] H; simpl in *; try discriminate.
  - congruence.
  - apply IH, H.
Qed.

Lemma settle_ok_inv res d :
  settle res = Ok d -> exists st, res = HttpResponse st d /\ status_ok st = true.
Proof.
  destruct res as [|st d']; simpl; [discriminate|].
  destruct (status_ok st) eqn:Hst; [|discriminate].
  intros [= <-]. eauto.
Qed.

Lemma get_prop_error o key e : get_prop o key = Throw e -> e = TypeError.
Proof. destruct o; simpl; congruence. Qed.

Lemma as_array_error v e : as_array v = Throw e -> e = TypeError.
Proof. destruct v; simpl; congruence. Qed.

(** What [analyzePlaylist] does between the test of the playlist and
    [Promise.all]. *)
Lemma fanout_eq playlist w :
  fanout playlist w
  = match rbind (rbind (get_prop playlist "tracks") (fun t => get_prop t "items"))
            as_array with
    | Ok elems => spawn elems w
    | Throw e => (Throw e, w)
    end.
Proof.
  unfold fanout. unfold_m.
  destruct (get_prop playlist "tracks") as [tracks|e]; simpl; [|reflexivity].
  destruct (get_prop tracks "items") as [items|e]; simpl; [|reflexivity].
  destruct (as_array items); reflexivity.
Qed.

Lemma getTrackFeatures_start_eq id w :
  getTrackFeatures_start id w
  = (Ok (task_of (authRequest w) id),
     match to_js_string id with
     | Ok _ => with_event (Sent (authRequest w)) w
     | Throw _ => w
     end).
Proof.
  unfold getTrackFeatures_start, start, task_of. unfold_m.
  destruct (to_js_string id); reflexivity.
Qed.

(** The [map] of the fan-out starts one task per item; the tasks whose
    id has a text send their token request, in the order of the items,
    before any answer is looked at. *)
Lemma spawn_run items ids w :
  item_ids items = Ok ids ->
  spawn items w
  = (Ok (map (task_of (authRequest w)) ids),
     with_events (replicate (texts_count ids) (Sent (authRequest w))) w).
Proof.
  revert ids w. induction items as [|item items IH]; intros ids w Hids; simpl in *.
  - injection Hids as <-. unfold ret. simpl. rewrite with_events_nil. reflexivity.
  - unfold bind at 1, lift at 1.
    destruct (get_prop item "track") as [track|e]; simpl in *; [|discriminate].
    unfold bind at 1, lift at 1.
    destruct (get_prop track "id") as [id|e]; simpl in *; [|discriminate].
    destruct (item_ids items) as [ids'|e]; simpl in *; [|discriminate].
    injection Hids as <-.
    unfold bind at 1. rewrite getTrackFeatures_start_eq.
    unfold bind at 1.
    destruct (to_js_string id) as [text|e] eqn:Hid.
    + rewrite (IH ids' _ eq_refl). unfold ret. simpl. rewrite Hid. f_equal.
      unfold with_events, with_event. simpl. rewrite <- app_assoc. reflexivity.
    + rewrite (IH ids' _ eq_refl). unfold ret. simpl. rewrite Hid. reflexivity.
Qed.

(** The [map] of the fan-out stops at the first item whose
    [item.track.id] cannot be read; the token requests of the items
    before it whose id has a text are sent by then. *)
Lemma spawn_fails items e w :
  item_ids items = Throw e ->
  spawn items w
  = (Throw TypeError,
     with_events (replicate (started_before items) (Sent (authRequest w))) w)
  /\ (started_before items < length items)%nat.
Proof.
  revert w. induction items as [|item items IH]; intros w Hids; simpl in *;
    [discriminate|].
  unfold bind at 1, lift at 1.
  destruct (get_prop item "track") as [track|e1] eqn:Ht; simpl in *.
  - unfold bind at 1, lift at 1.
    destruct (get_prop track "id") as [id|e2] eqn:Hi; simpl in *.
    + destruct (item_ids items) as [ids'|e3] eqn:Hr; simpl in *; [discriminate|].
      unfold bind at 1. rewrite getTrackFeatures_start_eq.
      unfold bind at 1.
      destruct (to_js_string id) as [text|e4] eqn:Hid.
      * destruct (IH (with_event (Sent (authRequest w)) w) Hids) as [-> Hlt].
        split; [|lia]. f_equal.
        unfold with_events, with_event. simpl. rewrite <- app_assoc. reflexivity.
      * destruct (IH w Hids) as [-> Hlt]. split; [reflexivity|lia].
    + rewrite (get_prop_error _ _ _ Hi), with_events_nil. split; [reflexivity|lia].
  - rewrite (get_prop_error _ _ _ Ht), with_events_nil. split; [reflexivity|lia].
Qed.

Lemma spawn_throws items w e : (spawn items w).1 = Throw e -> e = TypeError.
Proof.
  destruct (item_ids items) as [ids|e'] eqn:Hids.
  - rewrite (spawn_run _ _ _ Hids). discriminate.
  - destruct (spawn_fails _ _ w Hids) as [-> _]. simpl. congruence.
Qed.

Lemma fanout_throws playlist w e : (fanout playlist w).1 = Throw e -> e = TypeError.
Proof.
  rewrite fanout_eq.
  destruct (get_prop playlist "tracks") as [tracks|e1] eqn:Ht; simpl.
  - destruct (get_prop tracks "items") as [items|e2] eqn:Hi; simpl.
    + destruct (as_array items) as [elems|e3] eqn:Ha; simpl.
      * apply spawn_throws.
      * intros [= <-]. apply (as_array_error _ _ Ha).
    + intros [= <-]. apply (get_prop_error _ _ _ Hi).
  - intros [= <-]. apply (get_prop_error _ _ _ Ht).
Qed.

(** *** One job *)

Lemma resume_auth u areq w :
  resume (AwaitAuth u areq) w
  = (Authed u,
     (authenticate_resume (net (trace w) areq)
        (with_event (Recv areq (net (trace w) areq)) w)).2).
Proof.
  unfold resume. unfold bind at 1, await. cbv beta zeta.
  unfold bind at 1. rewrite authenticate_resume_eq. reflexivity.
Qed.

Lemma resume_authed u w :
  resume (Authed u) w
  = match to_js_string (accessToken w) with
    | Ok bearer =>
        (AwaitGet u (getRequest u VUndefined bearer),
         with_event (Sent (getRequest u VUndefined bearer)) w)
    | Throw e => (Done (Throw e), w)
    end.
Proof.
  unfold resume, makeRequest_send. unfold_m.
  destruct (to_js_string (accessToken w)); reflexivity.
Qed.

Lemma resume_get u req w :
  let res := net (trace w) req in
  resume (AwaitGet u req) w
  = (Done (Ok (degrade res)),
     match settle res with
     | Ok _ => with_event (Recv req res) w
     | Throw e =>
         with_console ("Failed to fetch from Spotify API: " +:+ u) e
           (with_event (Recv req res) w)
     end).
Proof.
  intros res. unfold resume. unfold bind at 1, await. cbv beta zeta.
  unfold bind at 1. rewrite makeRequest_resume_eq. reflexivity.
Qed.

Lemma resume_done r w : resume (Done r) w = (Done r, w).
Proof. reflexivity. Qed.

(** A job only adds events, sends no token request and leaves the
    credentials alone; a task it rejects is rejected with a
    [TypeError]. *)
Lemma resume_appends t w :
  exists ev,
    trace (resume t w).2 = trace w ++ ev
    /\ count_events (is_post_to tokenUrl) ev = 0%nat
    /\ clientId (resume t w).2 = clientId w
    /\ clientSecret (resume t w).2 = clientSecret w
    /\ (forall e, (resume t w).1 = Done (Throw e) -> t = Done (Throw e) \/ e = TypeError).
Proof.
  destruct t as [u areq|u|u req|r].
  - rewrite resume_auth, authenticate_resume_eq.
    exists [Recv areq (net (trace w) areq)].
    destruct (settle _) as [d|e]; [destruct (get_prop d "access_token")|];
      simpl; repeat split; discriminate.
  - rewrite resume_authed.
    destruct (to_js_string (accessToken w)) as [bearer|e] eqn:Ht.
    + exists [Sent (getRequest u VUndefined bearer)]. simpl. repeat split. discriminate.
    + exists []. simpl. rewrite app_nil_r. repeat split.
      intros e' [= <-]. right. apply (to_js_string_error _ _ Ht).
  - rewrite resume_get. exists [Recv req (net (trace w) req)].
    destruct (settle _); simpl; repeat split; discriminate.
  - exists []. rewrite resume_done. simpl. rewrite app_nil_r. repeat split.
    intros e H. left. exact H.
Qed.

Lemma deliver_appends i st :
  trace (deliver i st).2 = trace st.2 ++ step_events i st
  /\ count_events (is_post_to tokenUrl) (step_events i st) = 0%nat.
Proof.
  assert (H : exists ev, trace (deliver i st).2 = trace st.2 ++ ev
                         /\ count_events (is_post_to tokenUrl) ev = 0%nat).
  { unfold deliver. destruct (st.1 !! i) as [t|].
    - destruct (resume_appends t st.2) as (ev & Htr & Hc & _).
      destruct (resume t st.2) as [t' w']. exists ev. auto.
    - exists []. rewrite app_nil_r. auto. }
  destruct H as (ev & Htr & Hc). unfold step_events.
  rewrite Htr, drop_app_length. auto.
Qed.

Lemma run_app s1 s2 st : run (s1 ++ s2) st = run s2 (run s1 st).
Proof. unfold run. apply foldl_app. Qed.

Lemma events_of_app j s1 s2 st :
  events_of j (s1 ++ s2) st = events_of j s1 st ++ events_of j s2 (run s1 st).
Proof.
  revert st. induction s1 as [|i s1 IH]; intros st; simpl; [reflexivity|].
  rewrite IH, app_assoc. reflexivity.
Qed.

Lemma run_appends sched st :
  exists ev,
    trace (run sched st).2 = trace st.2 ++ ev
    /\ count_events (is_post_to tokenUrl) ev = 0%nat.
Proof.
  revert st. induction sched as [|i sched IH]; intros st.
  - exists []. simpl. rewrite app_nil_r. auto.
  - destruct (deliver_appends i st) as [Htr Hc].
    destruct (IH (deliver i st)) as (ev & Htr' & Hc').
    exists (step_events i st ++ ev). change (run (i :: sched) st) with (run sched (deliver i st)).
    rewrite Htr', Htr, <- app_assoc, count_events_app. split; [reflexivity|lia].
Qed.

Lemma run_nil sched w : run sched ([], w) = ([], w).
Proof. unfold run. induction sched as [|i sched IH]; simpl; auto. Qed.

Lemma run_keeps sched st :
  clientId (run sched st).2 = clientId st.2
  /\ clientSecret (run sched st).2 = clientSecret st.2.
Proof.
  revert st. unfold run.
  induction sched as [|i sched IH]; intros st; simpl; [auto|].
  destruct (IH (deliver i st)) as [-> ->]. unfold deliver.
  destruct (st.1 !! i) as [t|]; [|auto].
  destruct (resume_appends t st.2) as (ev & _ & _ & Hid & Hsec & _).
  destruct (resume t st.2) as [t' w']. auto.
Qed.

Lemma run_rejects sched st :
  Forall (fun t => forall e, t = Done (Throw e) -> e = TypeError) st.1 ->
  Forall (fun t => forall e, t = Done (Throw e) -> e = TypeError) (run sched st).1.
Proof.
  revert st. unfold run.
  induction sched as [|i sched IH]; intros st H; simpl; [exact H|].
  apply IH. unfold deliver.
  destruct (st.1 !! i) as [t|] eqn:Hl; [|exact H].
  destruct (resume_appends t st.2) as (ev & _ & _ & _ & _ & Hrej).
  destruct (resume t st.2) as [t' w']. simpl in *.
  apply Forall_insert; [exact H|].
  intros e ->. destruct (Hrej e eq_refl) as [-> | ->]; [|reflexivity].
  exact (Forall_lookup_1 _ _ _ _ H Hl e eq_refl).
Qed.

Lemma first_rejection_type_error tasks e :
  Forall (fun t => forall e, t = Done (Throw e) -> e = TypeError) tasks ->
  first_rejection tasks = Some e -> e = TypeError.
Proof.
  induction 1 as [|t tasks Ht _ IH]; simpl; [discriminate|].
  destruct t as [| | |[v|e']]; try exact IH.
  intros [= <-]. apply Ht. reflexivity.
Qed.

Lemma task_of_type_error auth ids :
  Forall (fun t => forall e, t = Done (Throw e) -> e = TypeError)
    (map (task_of auth) ids).
Proof.
  apply Forall_forall. intros t Ht.
  apply list_elem_of_In, in_map_iff in Ht as (id & <- & _).
  unfold task_of. destruct (to_js_string id) as [text|e'] eqn:Hid; [discriminate|].
  intros e [= <-]. apply (to_js_string_error _ _ Hid).
Qed.

(** *** The fan-out when every id and every token has a text *)

(** One job of a task, when the token held has a text and every token
    granted has one. *)
Lemma resume_text auth u E t w :
  grants_text_tokens -> url auth = tokenUrl ->
  has_text (accessToken w) ->
  task_rel auth u E t ->
  exists ev,
    trace (resume t w).2 = trace w ++ ev
    /\ has_text (accessToken (resume t w).2)
    /\ stage (resume t w).1 = Nat.min 3 (S (stage t))
    /\ task_rel auth u (E ++ ev) (resume t w).1
    /\ (String.prefix features_base u = true ->
        count_events is_features_get ev = if Nat.eqb (stage t) 1 then 1%nat else 0%nat)
    /\ count_events (is_post_to tokenUrl) ev = 0%nat.
Proof.
  intros Hg Hauth Htok Hrel. destruct t as [u' areq|u'|u' req|r]; simpl in Hrel.
  - destruct Hrel as (-> & -> & ->).
    rewrite resume_auth, authenticate_resume_eq.
    set (ares := net (trace w) auth).
    exists [Recv auth ares].
    assert (Htok' : has_text
              (accessToken
                 (match settle ares with
                  | Ok d =>
                      match get_prop d "access_token" with
                      | Ok t => with_accessToken t (with_event (Recv auth ares) w)
                      | Throw e =>
                          with_console "Failed to authenticate with Spotify API" e
                            (with_event (Recv auth ares) w)
                      end
                  | Throw e =>
                      with_console "Failed to authenticate with Spotify API" e
                        (with_event (Recv auth ares) w)
                  end))).
    { destruct (settle ares) as [d|e] eqn:Hs; [|exact Htok].
      destruct (get_prop d "access_token") as [t|e] eqn:Hp; [|exact Htok].
      destruct (settle_ok_inv _ _ Hs) as (st & Hres & Hst).
      exact (Hg (trace w) auth st d t Hauth Hres Hst Hp). }
    split; [|split; [exact Htok'|]].
    + destruct (settle ares) as [d|e]; [destruct (get_prop d "access_token")|];
        reflexivity.
    + simpl. repeat split; eauto.
  - destruct Hrel as (-> & ares & ->).
    rewrite resume_authed. destruct Htok as (bearer & Hb). rewrite Hb.
    exists [Sent (getRequest u VUndefined bearer)].
    split; [reflexivity|]. split; [exists bearer; exact Hb|].
    split; [reflexivity|]. split; [simpl; repeat split; eauto|].
    split; [|reflexivity].
    intros Hp. unfold count_events. rewrite !filter_cons, filter_nil.
    cbn [is_features_get getRequest]. rewrite Hp. reflexivity.
  - destruct Hrel as (-> & Hu & Hm & ares & ->).
    rewrite resume_get. cbv zeta.
    set (gres := net (trace w) req).
    exists [Recv req gres].
    split; [destruct (settle gres); reflexivity|].
    split; [destruct (settle gres); exact Htok|].
    split; [reflexivity|]. split; [|split; reflexivity].
    simpl. exists ares, req, gres, (trace w). auto.
  - exists []. rewrite resume_done. simpl. rewrite !app_nil_r.
    repeat split; auto.
Qed.

Lemma sent_gets_insert tasks i t t' :
  tasks !! i = Some t ->
  (sent_gets (<[i:=t']> tasks) + match stage t with O | S O => O | _ => 1 end
   = sent_gets tasks + match stage t' with O | S O => O | _ => 1 end)%nat.
Proof.
  unfold sent_gets. revert i.
  induction tasks as [|a tasks IH]; intros [|i] Hl; simpl in *; try discriminate.
  - injection Hl as ->. lia.
  - specialize (IH i Hl). lia.
Qed.


Lemma count_replicate_auth n w :
  count_events (is_post_to tokenUrl) (replicate n (Sent (authRequest w))) = n
  /\ count_events is_features_get (replicate n (Sent (authRequest w))) = 0%nat.
Proof.
  induction n as [|n [IH1 IH2]]; [split; reflexivity|].
  unfold count_events in *. simpl. split; [rewrite IH1; reflexivity | exact IH2].
Qed.

(** Where the fan-out stands after the jobs [done], started from one
    parked task per id. *)
Lemma fanout_after w1 (ts : list string) :
  grants_text_tokens -> has_text (accessToken w1) ->
  let auth := authRequest w1 in
  let st0 := (map (fun text => AwaitAuth (features_base +:+ text) auth) ts,
              with_events (replicate (length ts) (Sent auth)) w1) in
  forall done, exists d,
    trace (run done st0).2 = trace w1 ++ d
    /\ has_text (accessToken (run done st0).2)
    /\ length (run done st0).1 = length ts
    /\ (forall j text, ts !! j = Some text ->
          exists t, (run done st0).1 !! j = Some t
            /\ stage t = Nat.min 3 (count_occ Nat.eq_dec done j)
            /\ task_rel auth (features_base +:+ text) (events_of j done st0) t
            /\ sublist (events_of j done st0) d)
    /\ count_events is_features_get d = sent_gets (run done st0).1
    /\ count_events (is_post_to tokenUrl) d = length ts.
Proof.
  intros Hg Htok1 auth st0 done.
  induction done as [|i done IH] using rev_ind.
  - exists (replicate (length ts) (Sent auth)).
    change (run [] st0) with st0. cbn [fst snd st0].
    destruct (count_replicate_auth (length ts) w1) as [Hp Hf].
    split; [reflexivity|]. split; [exact Htok1|]. split; [apply length_map|].
    split; [|split; [|exact Hp]].
    + intros j text Hj. exists (AwaitAuth (features_base +:+ text) auth).
      split; [apply (lookup_map (fun text => AwaitAuth (features_base +:+ text) auth)
                       _ _ _ Hj)|].
      split; [reflexivity|]. split; [simpl; auto|]. apply sublist_nil_l.
    + fold auth in Hf. rewrite Hf. unfold sent_gets. clear.
      induction ts as [|t ts IH]; [reflexivity | exact IH].
  - destruct IH as (d & Htr & Htok & Hlen & Htasks & Hcf & Hcp).
    rewrite run_app. set (st := run done st0) in *.
    change (run [i] st) with (deliver i st).
    assert (Hev : forall j, events_of j (done ++ [i]) st0
                            = events_of j done st0
                                ++ (if decide (i = j) then step_events i st else [])).
    { intros j. rewrite events_of_app. fold st. simpl. rewrite app_nil_r. reflexivity. }
    assert (Hocc : forall j, count_occ Nat.eq_dec (done ++ [i]) j
                             = (count_occ Nat.eq_dec done j
                                + if decide (i = j) then 1 else 0)%nat).
    { intros j. rewrite count_occ_app. simpl.
      destruct (Nat.eq_dec i j), (decide (i = j)); try contradiction; reflexivity. }
    destruct (deliver_appends i st) as [Hstep _].
    destruct (st.1 !! i) as [t|] eqn:Hl.
    + assert (Hlt : (i < length ts)%nat) by (rewrite <- Hlen; eapply lookup_lt_Some, Hl).
      destruct (lookup_lt_is_Some_2 ts i Hlt) as (text_i & Hti).
      destruct (Htasks i text_i Hti) as (t0 & Hl0 & Hst0 & Hrel0 & Hsub0).
      rewrite Hl in Hl0. injection Hl0 as <-.
      destruct (resume_text auth (features_base +:+ text_i) _ t st.2 Hg eq_refl Htok Hrel0)
        as (ev & Htr' & Htok' & Hstage' & Hrel' & Hfeat & Hpost).
      specialize (Hfeat (prefix_append _ _)).
      assert (Hse : step_events i st = ev).
      { unfold step_events, deliver. rewrite Hl.
        destruct (resume t st.2) as [t' w']. simpl in *.
        rewrite Htr', drop_app_length. reflexivity. }
      assert (Hdel : deliver i st = (<[i := (resume t st.2).1]> st.1, (resume t st.2).2)).
      { unfold deliver. rewrite Hl. destruct (resume t st.2); reflexivity. }
      rewrite Hdel. cbn [fst snd]. exists (d ++ ev).
      split; [rewrite Htr', Htr, app_assoc; reflexivity|].
      split; [exact Htok'|]. split; [rewrite length_insert; exact Hlen|].
      split; [|split].
      * intros j text Hj.
        destruct (decide (i = j)) as [<-|Hne].
        -- rewrite Hev, Hocc, Hse, !decide_True by reflexivity.
           rewrite Hti in Hj. injection Hj as <-.
           exists (resume t st.2).1.
           split; [apply list_lookup_insert_eq; eapply lookup_lt_Some, Hl|].
           split; [rewrite Hstage', Hst0; lia|].
           split; [exact Hrel'|]. apply sublist_app; [exact Hsub0 | reflexivity].
        -- rewrite Hev, Hocc, Hse, !decide_False by assumption.
           destruct (Htasks j text Hj) as (tj & Hlj & Hstj & Hrelj & Hsubj).
           exists tj. rewrite list_lookup_insert_ne by assumption.
           rewrite app_nil_r, Nat.add_0_r.
           split; [exact Hlj|]. split; [exact Hstj|]. split; [exact Hrelj|].
           apply sublist_inserts_r, Hsubj.
      * rewrite count_events_app, Hcf, Hfeat.
        pose proof (sent_gets_insert st.1 i t (resume t st.2).1 Hl) as Hs.
        rewrite Hstage' in Hs.
        destruct (stage t) as [|[|[|n]]]; simpl in Hs |- *; lia.
      * rewrite count_events_app, Hcp, Hpost. lia.
    + assert (Hdel : deliver i st = st) by (unfold deliver; rewrite Hl; reflexivity).
      assert (Hse : step_events i st = []).
      { unfold step_events. rewrite Hdel. apply drop_all. }
      rewrite Hdel. exists d.
      split; [exact Htr|]. split; [exact Htok|]. split; [exact Hlen|].
      split; [|split; assumption].
      intros j text Hj.
      destruct (Htasks j text Hj) as (tj & Hlj & Hstj & Hrelj & Hsubj).
      exists tj. destruct (decide (i = j)) as [<-|Hne]; [congruence|].
      rewrite Hev, Hocc, Hse, !decide_False by assumption.
      rewrite app_nil_r, Nat.add_0_r. auto.
Qed.


(** [Promise.all] over tasks none of which is rejected. *)
Lemma promise_all_cases tasks :
  Forall (fun t => forall e, t <> Done (Throw e)) tasks ->
  first_rejection tasks = None
  /\ (Forall (fun t => stage t = 3%nat) tasks ->
      exists vs, all_results tasks = Some vs)
  /\ (forall vs, all_results tasks = Some vs ->
      Forall (fun t => stage t = 3%nat) tasks).
Proof.
  induction 1 as [|t tasks Ht _ (IH1 & IH2 & IH3)]; simpl.
  - split; [reflexivity|]. split; [eauto | constructor].
  - destruct t as [u a|u|u r|[v|e]]; try (exfalso; exact (Ht e eq_refl)).
    all: split; [exact IH1|]; split.
    all: try (intros Hd; apply Forall_cons in Hd as [Hd _]; discriminate).
    all: try (intros vs; discriminate).
    + intros Hd. apply Forall_cons in Hd as [_ Hd].
      destruct (IH2 Hd) as (vs & ->). eauto.
    + intros vs Hvs. destruct (all_results tasks) as [vs'|]; [|discriminate].
      constructor; [reflexivity | eapply IH3; reflexivity].
Qed.


(** *** What [analyzePlaylist] starts the fan-out from *)

Lemma track_ids_shape playlist ids :
  track_ids playlist = Ok ids ->
  truthy playlist = true
  /\ exists tracks items elems,
      get_prop playlist "tracks" = Ok tracks
      /\ get_prop tracks "items" = Ok items
      /\ as_array items = Ok elems
      /\ item_ids elems = Ok ids.
Proof.
  unfold track_ids. intros H.
  destruct (get_prop playlist "tracks") as [tracks|e] eqn:Ht; simpl in H; [|discriminate].
  destruct (get_prop tracks "items") as [items|e] eqn:Hi; simpl in H; [|discriminate].
  destruct (as_array items) as [elems|e] eqn:Ha; simpl in H; [|discriminate].
  split; [|eauto 10].
  destruct items; try discriminate.
  destruct tracks; try discriminate.
  destruct playlist; try discriminate.
  reflexivity.
Qed.

Lemma complete_thrice n sched j :
  complete n sched = true -> (j < n)%nat -> (3 <= count_occ Nat.eq_dec sched j)%nat.
Proof.
  unfold complete. rewrite forallb_forall. intros H Hj.
  apply Nat.leb_le, H, in_seq. lia.
Qed.

Lemma fanout_run playlist ids w :
  track_ids playlist = Ok ids ->
  fanout playlist w
  = (Ok (map (task_of (authRequest w)) ids),
     with_events (replicate (texts_count ids) (Sent (authRequest w))) w).
Proof.
  intros Hids.
  destruct (track_ids_shape _ _ Hids) as (_ & tracks & items & elems & Ht & Hi & Ha & He).
  rewrite fanout_eq, Ht. simpl. rewrite Hi. simpl. rewrite Ha.
  apply spawn_run, He.
Qed.

(** When [tracks.items] is no array or some [item.track.id] cannot be
    read, the fan-out throws where it stands. *)
Lemma fanout_fails playlist e w :
  track_ids playlist = Throw e ->
  exists k,
    fanout playlist w
    = (Throw TypeError, with_events (replicate k (Sent (authRequest w))) w)
    /\ forall tracks elems,
         get_prop playlist "tracks" = Ok tracks ->
         get_prop tracks "items" = Ok (VArr elems) ->
         k = started_before elems /\ (k < length elems)%nat.
Proof.
  intros Hids. rewrite fanout_eq. unfold track_ids in Hids.
  destruct (get_prop playlist "tracks") as [tracks|e1] eqn:Ht; simpl in *.
  - destruct (get_prop tracks "items") as [items|e2] eqn:Hi; simpl in *.
    + destruct (as_array items) as [elems|e3] eqn:Ha; simpl in *.
      * destruct (spawn_fails elems e w Hids) as [-> Hlt].
        exists (started_before elems). split; [reflexivity|].
        intros tracks' elems' Ht' Hi'.
        injection Ht' as <-.
        rewrite Hi in Hi'. injection Hi' as ->.
        simpl in Ha. injection Ha as <-. auto.
      * exists O. rewrite (as_array_error _ _ Ha). simpl. rewrite with_events_nil.
        split; [reflexivity|]. intros tracks' elems' Ht' Hi'.
        injection Ht' as <-.
        rewrite Hi in Hi'. injection Hi' as ->. discriminate.
    + exists O. rewrite (get_prop_error _ _ _ Hi). simpl. rewrite with_events_nil.
      split; [reflexivity|]. intros tracks' elems' Ht' Hi'.
      injection Ht' as <-.
      rewrite Hi in Hi'. discriminate.
  - exists O. rewrite (get_prop_error _ _ _ Ht). simpl. rewrite with_events_nil.
    split; [reflexivity|]. intros tracks' elems' Ht'.
    discriminate.
Qed.

Lemma tasks_of_texts auth ids texts :
  Forall2 (fun id text => to_js_string id = Ok text) ids texts ->
  map (task_of auth) ids
  = map (fun text => AwaitAuth (features_base +:+ text) auth) texts
  /\ texts_count ids = length texts.
Proof.
  induction 1 as [|id text ids texts Hid _ [IH1 IH2]]; [split; reflexivity|].
  cbn [map texts_count length]. unfold task_of at 1.
  rewrite Hid, IH1, IH2. split; reflexivity.
Qed.

Lemma texts_count_le ids :
  (texts_count ids <= length ids)%nat
  /\ (Forall has_text ids -> texts_count ids = length ids).
Proof.
  induction ids as [|id ids [IH1 IH2]]; [split; reflexivity|].
  cbn [texts_count length]. split.
  - destruct (to_js_string id); lia.
  - intros H. apply Forall_cons in H as [(text & ->) H]. rewrite (IH2 H). reflexivity.
Qed.

Lemma getPlaylist_run playlistId w :
  exists d, trace (getPlaylist playlistId w).2 = trace w ++ d
    /\ count_events is_features_get d = 0%nat.
Proof.
  destruct (makeRequest_authenticates_once
              ("https://api.spotify.com/v1/playlists/" +:+ playlistId) VUndefined w)
    as (rest & Htr & _ & Htext & Hno).
  cbv zeta in Htr, Htext, Hno. eexists. split; [exact Htr|].
  destruct (has_text_or_not (accessToken (authenticate w).2)) as [(bearer & Hb)|Hb].
  - destruct (Htext bearer Hb) as (greq & gres & -> & Hm & Hu).
    destruct greq as [m u hs ps dt]. simpl in Hm, Hu. subst m u. reflexivity.
  - destruct (Hno Hb) as [-> _]. reflexivity.
Qed.

(** [analyzePlaylist] on a playlist whose track ids can all be read: the
    fan-out starts from one task per track. *)
Lemma analyzePlaylist_run w sched playlistId playlist ids :
  (getPlaylist playlistId w).1 = Ok playlist ->
  track_ids playlist = Ok ids ->
  let w1 := (getPlaylist playlistId w).2 in
  let st := run sched
              (map (task_of (authRequest w1)) ids,
               with_events (replicate (texts_count ids) (Sent (authRequest w1))) w1) in
  analyzePlaylist sched playlistId w
  = (match promise_all st.1 with
     | Pending => Pending
     | Fulfilled trackFeatures => Fulfilled (VArr trackFeatures)
     | Rejected e => Rejected e
     end, st.2).
Proof.
  intros Hget Hids w1 st. subst st w1. unfold analyzePlaylist.
  destruct (getPlaylist playlistId w) as [r w1]. simpl in Hget. subst r. cbn [fst snd].
  destruct (track_ids_shape _ _ Hids) as (Htruthy & _).
  rewrite Htruthy. cbn [negb]. rewrite (fanout_run _ _ _ Hids).
  destruct (run sched _) as [tasks' w3]. reflexivity.
Qed.

(** The same when every id has a text: one parked task per track. *)
Lemma analyzePlaylist_text_run w sched playlistId playlist ids texts :
  (getPlaylist playlistId w).1 = Ok playlist ->
  track_ids playlist = Ok ids ->
  Forall2 (fun id text => to_js_string id = Ok text) ids texts ->
  let w1 := (getPlaylist playlistId w).2 in
  let auth := authRequest w1 in
  let st0 := (map (fun text => AwaitAuth (features_base +:+ text) auth) texts,
              with_events (replicate (length texts) (Sent auth)) w1) in
  analyzePlaylist sched playlistId w
  = (match promise_all (run sched st0).1 with
     | Pending => Pending
     | Fulfilled trackFeatures => Fulfilled (VArr trackFeatures)
     | Rejected e => Rejected e
     end, (run sched st0).2)
  /\ (forall j, task_events j sched playlist w1 = events_of j sched st0)
  /\ has_text (accessToken w1)
  /\ length texts = length ids.
Proof.
  intros Hget Hids Htexts w1 auth st0.
  destruct (tasks_of_texts auth ids texts Htexts) as [Hmap Hcount].
  split; [|split; [|split]].
  - rewrite (analyzePlaylist_run _ _ _ _ _ Hget Hids). cbv zeta.
    fold w1. fold auth. rewrite Hmap, Hcount. reflexivity.
  - intros j. unfold task_events. rewrite (fanout_run _ _ _ Hids).
    fold auth. rewrite Hmap, Hcount. reflexivity.
  - unfold w1, getPlaylist. eapply makeRequest_ok_text. exact Hget.
  - symmetry. eapply Forall2_length, Htexts.
Qed.

(** With ids and tokens that have a text no task is ever rejected, and
    all tasks are settled exactly when each has run its three jobs. *)
Lemma fanout_settles w1 (ts : list string) sched :
  grants_text_tokens -> has_text (accessToken w1) ->
  let auth := authRequest w1 in
  let st0 := (map (fun text => AwaitAuth (features_base +:+ text) auth) ts,
              with_events (replicate (length ts) (Sent auth)) w1) in
  Forall (fun t => forall e, t <> Done (Throw e)) (run sched st0).1
  /\ (Forall (fun t => stage t = 3%nat) (run sched st0).1
      <-> complete (length ts) sched = true).
Proof.
  intros Hg Htok auth st0.
  destruct (fanout_after w1 ts Hg Htok sched) as (d & _ & _ & Hlen & Htasks & _).
  fold auth in Hlen, Htasks. fold st0 in Hlen, Htasks.
  split; [|split].
  - apply Forall_lookup. intros j t Hj.
    assert (Hlt : (j < length ts)%nat) by (rewrite <- Hlen; eapply lookup_lt_Some, Hj).
    destruct (lookup_lt_is_Some_2 ts j Hlt) as (text & Htext).
    destruct (Htasks j text Htext) as (t0 & Hl0 & _ & Hrel & _).
    rewrite Hj in Hl0. injection Hl0 as <-.
    intros e ->. simpl in Hrel.
    destruct Hrel as (ares & greq & gres & history & _ & _ & _ & _ & Hr).
    discriminate.
  - intros Hdone. unfold complete. apply forallb_forall. intros j Hj.
    apply in_seq in Hj.
    destruct (lookup_lt_is_Some_2 ts j ltac:(lia)) as (text & Htext).
    destruct (Htasks j text Htext) as (t & Hl & Hst & _).
    rewrite (Forall_lookup_1 _ _ _ _ Hdone Hl) in Hst.
    destruct (count_occ Nat.eq_dec sched j) as [|[|[|n]]];
      [discriminate | discriminate | discriminate | reflexivity].
  - intros Hcomp. apply Forall_lookup. intros j t Hj.
    assert (Hlt : (j < length ts)%nat) by (rewrite <- Hlen; eapply lookup_lt_Some, Hj).
    destruct (lookup_lt_is_Some_2 ts j Hlt) as (text & Htext).
    destruct (Htasks j text Htext) as (t0 & Hl0 & Hst & _).
    rewrite Hj in Hl0. injection Hl0 as <-.
    pose proof (complete_thrice _ _ _ Hcomp Hlt) as Hthree.
    rewrite Hst.
    destruct (count_occ Nat.eq_dec sched j) as [|[|[|n]]]; [lia | lia | lia | reflexivity].
Qed.

(** *** Where the answers of the fan-out come from *)







(** ** The claims on [analyzePlaylist] *)


(** C6: when the fetch of the playlist yields [undefined],
    [analyzePlaylist] is fulfilled with [undefined] in the world the
    fetch left: nothing is sent after it, and no GET has gone to the
    audio-features endpoint. *)
Theorem analyzePlaylist_absent_playlist (w : World) (sched : list nat)
    (playlistId : string) :
  (getPlaylist playlistId w).1 = Ok VUndefined ->
  analyzePlaylist sched playlistId w
  = (Fulfilled VUndefined, (getPlaylist playlistId w).2)
  /\ exists d, trace (analyzePlaylist sched playlistId w).2 = trace w ++ d
       /\ count_events is_features_get d = 0%nat.
Proof.
  intros Hget.
  assert (Hrun : analyzePlaylist sched playlistId w
                 = (Fulfilled VUndefined, (getPlaylist playlistId w).2)).
  { unfold analyzePlaylist.
    destruct (getPlaylist playlistId w) as [r w1]. simpl in Hget. subst r.
    reflexivity. }
  split; [exact Hrun|]. rewrite Hrun. simpl.
  apply getPlaylist_run.
Qed.

(** C10: when the playlist is fetched and [playlist.tracks.items] is the
    empty array, [analyzePlaylist] is fulfilled with an empty array, not
    with [undefined], and no GET goes to the audio-features endpoint. *)
Theorem analyzePlaylist_empty_playlist (w : World) (sched : list nat)
    (playlistId : string) (playlist tracks : value) :
  (getPlaylist playlistId w).1 = Ok playlist ->
  get_prop playlist "tracks" = Ok tracks ->
  get_prop tracks "items" = Ok (VArr []) ->
  analyzePlaylist sched playlistId w
  = (Fulfilled (VArr []), (getPlaylist playlistId w).2)
  /\ (analyzePlaylist sched playlistId w).1 <> Fulfilled VUndefined
  /\ exists d, trace (analyzePlaylist sched playlistId w).2 = trace w ++ d
       /\ count_events is_features_get d = 0%nat.
Proof.
  intros Hget Ht Hi.
  assert (Hids : track_ids playlist = Ok []).
  { unfold track_ids. rewrite Ht. simpl. rewrite Hi. reflexivity. }
  assert (Hrun : analyzePlaylist sched playlistId w
                 = (Fulfilled (VArr []), (getPlaylist playlistId w).2)).
  { rewrite (analyzePlaylist_run _ _ _ _ _ Hget Hids). cbv zeta.
    cbn [map texts_count replicate]. rewrite with_events_nil, run_nil. reflexivity. }
  split; [exact Hrun|]. rewrite Hrun. simpl.
  split; [discriminate|].
  apply getPlaylist_run.
Qed.

(** ** Further properties of [analyzePlaylist] *)

Lemma makeRequest_keeps u ps : keeps_credentials (makeRequest u ps).
Proof.
  intros w. destruct (authenticate_run w) as (w1 & Ha & _ & Hid & Hsec & _).
  assert (Hw1 : (authenticate w).2 = w1) by (rewrite Ha; reflexivity).
  destruct (to_js_string (accessToken w1)) as [bearer|e] eqn:Ht.
  - rewrite (makeRequest_text u ps w bearer) by (rewrite Hw1; exact Ht).
    cbv zeta. rewrite Hw1. destruct (settle _); simpl; auto.
  - rewrite (makeRequest_no_text u ps w e) by (rewrite Hw1; exact Ht).
    rewrite Hw1. simpl. auto.
Qed.

Lemma unwrap_keeps u ps (k : value -> Result value) :
  keeps_credentials (d <- makeRequest u ps ;; lift (k d))%M.
Proof.
  intros w. destruct (unwrap_run u ps k w) as [-> _]. apply makeRequest_keeps.
Qed.

Lemma fanout_keeps playlist w :
  clientId (fanout playlist w).2 = clientId w
  /\ clientSecret (fanout playlist w).2 = clientSecret w.
Proof.
  destruct (track_ids playlist) as [ids|e] eqn:Hids.
  - rewrite (fanout_run _ _ _ Hids). split; reflexivity.
  - destruct (fanout_fails _ _ w Hids) as (k & -> & _). split; reflexivity.
Qed.

Lemma analyzePlaylist_keeps sched id : keeps_credentials (analyzePlaylist sched id).
Proof.
  intros w. unfold analyzePlaylist.
  destruct (makeRequest_keeps ("https://api.spotify.com/v1/playlists/" +:+ id)
              VUndefined w) as [Hid Hsec].
  fold (getPlaylist id) in Hid, Hsec.
  destruct (getPlaylist id w) as [[playlist|e] w1]; cbn [fst snd] in *; [|auto].
  destruct (truthy playlist); cbn [negb fst snd]; [|auto].
  destruct (fanout_keeps playlist w1) as [Hid' Hsec'].
  destruct (fanout playlist w1) as [[tasks|e] w2]; cbn [fst snd] in *; [|split; congruence].
  destruct (run_keeps sched (tasks, w2)) as [Hid'' Hsec''].
  destruct (run sched (tasks, w2)) as [tasks' w3]. cbn [fst snd] in *.
  split; congruence.
Qed.

(** X9: no method changes the client id or the client secret of the
    wrapper; [analyzePlaylist] does not either, whatever the order of
    the answers and whatever the playlist looks like. *)
Theorem credentials_never_change :
  keeps_credentials authenticate
  /\ (forall u ps, keeps_credentials (makeRequest u ps))
  /\ (forall id, keeps_credentials (getPlaylist id))
  /\ (forall q, keeps_credentials (searchTracks q))
  /\ (forall id, keeps_credentials (getAlbum id))
  /\ (forall id, keeps_credentials (getArtist id))
  /\ (forall id, keeps_credentials (getUserProfile id))
  /\ (forall id market, keeps_credentials (getArtistTopTracks id market))
  /\ (forall id, keeps_credentials (getArtistAlbums id))
  /\ (forall userId name description publicStatus,
        keeps_credentials (createPlaylist userId name description publicStatus))
  /\ (forall playlistId trackUris,
        keeps_credentials (addTracksToPlaylist playlistId trackUris))
  /\ (forall id, keeps_credentials (getTrackFeatures id))
  /\ (forall sched id, keeps_credentials (analyzePlaylist sched id)).
Proof.
  split.
  { intros w. destruct (authenticate_run w) as (w1 & -> & _ & Hid & Hsec & _).
    simpl. auto. }
  repeat match goal with |- _ /\ _ => split end; intros;
    try (first [ apply makeRequest_keeps | apply unwrap_keeps
               | apply analyzePlaylist_keeps ]).
  - intros w. unfold createPlaylist. unfold_m.
    destruct (to_js_string (accessToken w)); [|split; reflexivity].
    simpl. destruct (settle _); split; reflexivity.
  - intros w. unfold addTracksToPlaylist. unfold_m.
    destruct (to_js_string (accessToken w)); [|split; reflexivity].
    simpl. destruct (settle _); split; reflexivity.
  - destruct (to_js_string id) as [text|e] eqn:Hid.
    + rewrite (getTrackFeatures_text _ _ Hid). apply makeRequest_keeps.
    + intros w. rewrite (getTrackFeatures_no_text _ _ w Hid). split; reflexivity.
Qed.

(** X10: once the playlist request has returned [v], [analyzePlaylist]
    is fulfilled with [undefined] exactly when [v] is falsy ([undefined],
    [null], [false], [0] or the empty string), and then nothing is sent
    after the playlist request. *)
Theorem analyzePlaylist_undefined_iff_falsy (w : World) (sched : list nat)
    (playlistId : string) (v : value) :
  (getPlaylist playlistId w).1 = Ok v ->
  ((analyzePlaylist sched playlistId w).1 = Fulfilled VUndefined <-> truthy v = false)
  /\ (truthy v = false ->
      analyzePlaylist sched playlistId w
      = (Fulfilled VUndefined, (getPlaylist playlistId w).2)).
Proof.
  intros Hget. unfold analyzePlaylist.
  destruct (getPlaylist playlistId w) as [r w1]. simpl in Hget. subst r.
  destruct (truthy v); simpl.
  - split; [|discriminate]. split; [|discriminate].
    destruct (fanout v w1) as [[tasks|e] w2]; [|discriminate].
    destruct (run sched (tasks, w2)) as [tasks' w3]. simpl.
    destruct (promise_all tasks'); discriminate.
  - split; [split|]; reflexivity.
Qed.

(** [analyzePlaylist] on a truthy playlist whose track ids cannot all be
    read. *)
Lemma analyzePlaylist_fails w sched playlistId playlist e :
  (getPlaylist playlistId w).1 = Ok playlist ->
  truthy playlist = true ->
  track_ids playlist = Throw e ->
  let w1 := (getPlaylist playlistId w).2 in
  exists k,
    analyzePlaylist sched playlistId w
    = (Rejected TypeError, with_events (replicate k (Sent (authRequest w1))) w1)
    /\ forall tracks elems,
         get_prop playlist "tracks" = Ok tracks ->
         get_prop tracks "items" = Ok (VArr elems) ->
         k = started_before elems /\ (k < length elems)%nat.
Proof.
  intros Hget Htruthy Hids w1. subst w1. unfold analyzePlaylist.
  destruct (getPlaylist playlistId w) as [r w1]. simpl in Hget. subst r.
  rewrite Htruthy. cbn [negb fst snd].
  destruct (fanout_fails playlist e w1 Hids) as (k & -> & Hk).
  exists k. split; [reflexivity | exact Hk].
Qed.


(** X12: once the playlist is fetched, with track ids that have a text
    and a remote side whose granted tokens have one, [analyzePlaylist]
    stays pending exactly as long as some task of the fan-out has a job
    left: the answer to its token request, the sending of its GET, or
    the answer to its GET. *)
Theorem analyzePlaylist_pending_until_answered (w : World) (sched : list nat)
    (playlistId : string) (playlist : value) (ids : list value) (texts : list string) :
  (getPlaylist playlistId w).1 = Ok playlist ->
  track_ids playlist = Ok ids ->
  Forall2 (fun id text => to_js_string id = Ok text) ids texts ->
  grants_text_tokens ->
  ((analyzePlaylist sched playlistId w).1 = Pending
   <-> complete (length ids) sched = false).
Proof.
  intros Hget Hids Htexts Hg.
  destruct (analyzePlaylist_text_run w sched playlistId playlist ids texts Hget Hids Htexts)
    as (Hrun & _ & Htok & Hlenids).
  rewrite Hrun. cbn [fst]. rewrite <- Hlenids.
  set (w1 := (getPlaylist playlistId w).2) in *.
  set (auth := authRequest w1) in *.
  set (st0 := (map (fun text => AwaitAuth (features_base +:+ text) auth) texts,
               with_events (replicate (length texts) (Sent auth)) w1)) in *.
  destruct (fanout_settles w1 texts sched Hg Htok) as [Hnorej Hdone].
  fold auth in Hnorej, Hdone. fold st0 in Hnorej, Hdone.
  destruct (promise_all_cases _ Hnorej) as (Hrej & Hall & Hsome).
  unfold promise_all. rewrite Hrej.
  destruct (all_results (run sched st0).1) as [vs|] eqn:Hvs.
  - split; [discriminate|]. intros Hno.
    rewrite (proj1 Hdone (Hsome vs eq_refl)) in Hno. discriminate.
  - split; [|reflexivity]. intros _.
    destruct (complete (length texts) sched) eqn:Hc; [|reflexivity].
    destruct (Hall (proj2 Hdone eq_refl)) as (vs & Hsome'). discriminate.
Qed.

(** *** Which token a GET of the fan-out carries *)

Lemma token_after_app token d ev :
  token_after token (d ++ ev) = token_after (token_after token d) ev.
Proof.
  revert token. induction d as [|[req|req res] d IH]; intros token; simpl; auto.
Qed.

Lemma gets_carry_app token d ev :
  gets_carry_last_token token d ->
  gets_carry_last_token (token_after token d) ev ->
  gets_carry_last_token token (d ++ ev).
Proof.
  intros Hd Hev p greq Hp Hm.
  destruct (decide (p < length d)%nat) as [Hlt|Hge].
  - rewrite lookup_app_l in Hp by assumption.
    destruct (Hd p greq Hp Hm) as (bearer & Hb & Hh).
    exists bearer. split; [|exact Hh].
    rewrite take_app_le by lia. exact Hb.
  - rewrite lookup_app_r in Hp by lia.
    destruct (Hev _ greq Hp Hm) as (bearer & Hb & Hh).
    exists bearer. split; [|exact Hh].
    rewrite take_app_ge by lia. rewrite token_after_app. exact Hb.
Qed.

Lemma gets_carry_nil token : gets_carry_last_token token [].
Proof. intros p greq Hp. discriminate. Qed.

(** One job: the token it leaves is the last one granted, and a GET it
    sends carries the text of the token held when the job runs. *)
Lemma resume_tokens t w :
  task_methods t ->
  exists ev,
    trace (resume t w).2 = trace w ++ ev
    /\ accessToken (resume t w).2 = token_after (accessToken w) ev
    /\ gets_carry_last_token (accessToken w) ev
    /\ task_methods (resume t w).1.
Proof.
  intros Hm. destruct t as [u areq|u|u req|r]; simpl in Hm.
  - rewrite resume_auth, authenticate_resume_eq.
    exists [Recv areq (net (trace w) areq)].
    cbn [token_after]. rewrite Hm.
    split; [destruct (settle _) as [d|e]; [destruct (get_prop d "access_token")|];
            reflexivity|].
    split; [destruct (settle _) as [d|e]; [destruct (get_prop d "access_token")|];
            reflexivity|].
    split; [|exact I].
    intros [|p] greq Hp; discriminate.
  - rewrite resume_authed.
    destruct (to_js_string (accessToken w)) as [bearer|e] eqn:Ht.
    + exists [Sent (getRequest u VUndefined bearer)].
      split; [reflexivity|]. split; [reflexivity|]. split; [|reflexivity].
      intros [|p] greq Hp Hget; [|discriminate].
      injection Hp as <-. exists bearer. split; [exact Ht | reflexivity].
    + exists []. cbn [fst snd]. rewrite app_nil_r.
      split; [reflexivity|]. split; [reflexivity|].
      split; [apply gets_carry_nil | exact I].
  - rewrite resume_get. cbv zeta.
    exists [Recv req (net (trace w) req)].
    cbn [token_after]. rewrite Hm.
    split; [destruct (settle _); reflexivity|].
    split; [destruct (settle _); reflexivity|].
    split; [|exact I].
    intros [|p] greq Hp; discriminate.
  - exists []. rewrite resume_done. cbn [fst snd]. rewrite app_nil_r.
    split; [reflexivity|]. split; [reflexivity|].
    split; [apply gets_carry_nil | exact I].
Qed.

Lemma run_tokens sched st :
  Forall task_methods st.1 ->
  exists ev,
    trace (run sched st).2 = trace st.2 ++ ev
    /\ accessToken (run sched st).2 = token_after (accessToken st.2) ev
    /\ gets_carry_last_token (accessToken st.2) ev.
Proof.
  revert st. induction sched as [|i sched IH]; intros st Hm.
  - exists []. cbn [run foldl]. rewrite app_nil_r.
    split; [reflexivity|]. split; [reflexivity | apply gets_carry_nil].
  - assert (Hstep : exists ev,
               trace (deliver i st).2 = trace st.2 ++ ev
               /\ accessToken (deliver i st).2 = token_after (accessToken st.2) ev
               /\ gets_carry_last_token (accessToken st.2) ev
               /\ Forall task_methods (deliver i st).1).
    { unfold deliver. destruct (st.1 !! i) as [t|] eqn:Hl.
      - destruct (resume_tokens t st.2 (Forall_lookup_1 _ _ _ _ Hm Hl))
          as (ev & Htr & Htok & Hc & Hm').
        destruct (resume t st.2) as [t' w']. cbn [fst snd] in *.
        exists ev. split; [exact Htr|]. split; [exact Htok|]. split; [exact Hc|].
        apply Forall_insert; assumption.
      - exists []. rewrite app_nil_r.
        split; [reflexivity|]. split; [reflexivity|].
        split; [apply gets_carry_nil | exact Hm]. }
    destruct Hstep as (ev & Htr & Htok & Hc & Hm').
    destruct (IH (deliver i st) Hm') as (ev' & Htr' & Htok' & Hc').
    exists (ev ++ ev'). change (run (i :: sched) st) with (run sched (deliver i st)).
    rewrite Htr', Htr, <- app_assoc. split; [reflexivity|].
    rewrite Htok', Htok, token_after_app. split; [reflexivity|].
    apply gets_carry_app; [exact Hc|]. rewrite <- Htok. exact Hc'.
Qed.

Lemma token_after_sent token n req :
  token_after token (replicate n (Sent req)) = token.
Proof. induction n as [|n IH]; simpl; auto. Qed.

(** X13: in the fan-out the wrapper holds, at any moment, the token
    granted last, to whichever task; a task reads the token in a later
    job than the one that took the answer to its token request, so each
    GET carries the text of the token granted last before it is sent,
    which need not be the token granted to the task that sends it. *)
Theorem fanout_gets_carry_last_token (w : World) (sched : list nat)
    (playlistId : string) (playlist : value) (ids : list value) :
  (getPlaylist playlistId w).1 = Ok playlist ->
  track_ids playlist = Ok ids ->
  let w1 := (getPlaylist playlistId w).2 in
  exists d,
    trace (analyzePlaylist sched playlistId w).2 = trace w1 ++ d
    /\ accessToken (analyzePlaylist sched playlistId w).2
       = token_after (accessToken w1) d
    /\ gets_carry_last_token (accessToken w1) d.
Proof.
  intros Hget Hids w1.
  rewrite (analyzePlaylist_run _ _ _ _ _ Hget Hids). cbv zeta. fold w1. cbn [snd].
  set (auth := authRequest w1).
  set (st0 := (map (task_of auth) ids,
               with_events (replicate (texts_count ids) (Sent auth)) w1)).
  destruct (run_tokens sched st0) as (ev & Htr & Htok & Hc).
  { apply Forall_forall. intros t Ht.
    apply list_elem_of_In, in_map_iff in Ht as (id & <- & _).
    unfold task_of. destruct (to_js_string id); [reflexivity | exact I]. }
  exists (replicate (texts_count ids) (Sent auth) ++ ev).
  rewrite Htr, Htok. cbn [st0 snd with_events trace accessToken].
  split; [rewrite <- app_assoc; reflexivity|].
  split; [rewrite token_after_app, token_after_sent; reflexivity|].
  apply gets_carry_app.
  - intros p greq Hp Hm. apply lookup_replicate in Hp as [Hp _].
    injection Hp as ->. unfold auth in Hm. simpl in Hm. discriminate Hm.
  - rewrite token_after_sent. exact Hc.
Qed.

(** X14: the fan-out sends the token requests of the tracks whose id
    has a text, all the same, in a row, before it looks at any answer,
    and sends no token request after them; there are N of them when all
    N ids have a text, and fewer otherwise. *)
Theorem fanout_token_requests_first (w : World) (sched : list nat)
    (playlistId : string) (playlist : value) (ids : list value) :
  (getPlaylist playlistId w).1 = Ok playlist ->
  track_ids playlist = Ok ids ->
  exists rest,
    trace (analyzePlaylist sched playlistId w).2
    = trace (getPlaylist playlistId w).2
        ++ replicate (texts_count ids) (Sent (authRequest w)) ++ rest
    /\ count_events (is_post_to tokenUrl) rest = 0%nat
    /\ (texts_count ids <= length ids)%nat
    /\ (Forall has_text ids -> texts_count ids = length ids).
Proof.
  intros Hget Hids.
  rewrite (analyzePlaylist_run _ _ _ _ _ Hget Hids). cbv zeta. cbn [snd].
  set (w1 := (getPlaylist playlistId w).2).
  assert (Hreq : authRequest w1 = authRequest w).
  { destruct (makeRequest_keeps ("https://api.spotify.com/v1/playlists/" +:+ playlistId)
                VUndefined w) as [Hid Hsec].
    unfold authRequest, w1, getPlaylist. rewrite Hid, Hsec. reflexivity. }
  rewrite Hreq.
  destruct (run_appends sched
              (map (task_of (authRequest w)) ids,
               with_events (replicate (texts_count ids) (Sent (authRequest w))) w1))
    as (ev & Htr & Hc).
  exists ev. rewrite Htr. cbn [snd with_events trace]. rewrite <- app_assoc.
  split; [reflexivity|]. split; [exact Hc|]. apply texts_count_le.
Qed.

(** Every rejection of a task of the fan-out is a [TypeError]. *)
Lemma fanout_rejections sched auth ids w e :
  first_rejection (run sched (map (task_of auth) ids, w)).1 = Some e -> e = TypeError.
Proof.
  apply first_rejection_type_error, run_rejects, task_of_type_error.
Qed.

(** X17: [analyzePlaylist] is pending, or fulfilled with [undefined] or
    with an array, or rejected with a [TypeError]; it is rejected with
    nothing else, whatever the remote side answers and in whatever
    order. *)
Theorem analyzePlaylist_outcomes (w : World) (sched : list nat) (playlistId : string) :
  let r := analyzePlaylist sched playlistId w in
  r.1 = Pending
  \/ r.1 = Fulfilled VUndefined
  \/ (exists trackFeatures, r.1 = Fulfilled (VArr trackFeatures))
  \/ r.1 = Rejected TypeError.
Proof.
  cbv zeta.
  destruct (getPlaylist playlistId w) as [[playlist|e] w1] eqn:Hget.
  - destruct (truthy playlist) eqn:Htruthy.
    + destruct (track_ids playlist) as [ids|e] eqn:Hids.
      * assert (Hget1 : (getPlaylist playlistId w).1 = Ok playlist)
          by (rewrite Hget; reflexivity).
        rewrite (analyzePlaylist_run _ _ _ _ _ Hget1 Hids). cbv zeta. cbn [fst].
        unfold promise_all.
        destruct (first_rejection _) as [e|] eqn:Hrej.
        -- rewrite (fanout_rejections _ _ _ _ _ Hrej). auto.
        -- destruct (all_results _) as [vs|]; eauto.
      * assert (Hget1 : (getPlaylist playlistId w).1 = Ok playlist)
          by (rewrite Hget; reflexivity).
        destruct (analyzePlaylist_fails w sched playlistId playlist e
                    Hget1 Htruthy Hids) as (k & -> & _).
        auto.
    + unfold analyzePlaylist. rewrite Hget, Htruthy. auto.
  - unfold analyzePlaylist. rewrite Hget. cbn [fst].
    assert (He : (makeRequest ("https://api.spotify.com/v1/playlists/" +:+ playlistId)
                    VUndefined w).1 = Throw e).
    { fold (getPlaylist playlistId). rewrite Hget. reflexivity. }
    rewrite (makeRequest_throws_type_error _ _ _ _ He). auto.
Qed.
End Wrapper.

Arguments Pending {A}.
Arguments Fulfilled {A} a.
Arguments Rejected {A} e.

(** ** The scenarios, run *)

(** The playlist [p1]: the features of [t1], and [undefined] for [t2],
    in this order, in whichever order the jobs of the two tasks run. *)
Example analyzePlaylist_p1 :
  forall sched,
    In sched [[0; 0; 0; 1; 1; 1]; [1; 1; 1; 0; 0; 0]; [0; 1; 0; 1; 0; 1];
              [1; 0; 0; 1; 1; 0; 0]]%nat ->
    (analyzePlaylist Scenario.net_up Scenario.base64 Scenario.number_to_string
       sched "p1" Scenario.w0).1
    = Fulfilled (VArr [VObj [("danceability", VNum (1 # 2))]; VUndefined]).
Proof.
  intros sched Hin. simpl in Hin.
  repeat (destruct Hin as [<-|Hin]; [vm_compute; reflexivity|]).
  contradiction.
Qed.

(** While a job is outstanding the promise stays pending. *)
Example analyzePlaylist_p1_pending :
  (analyzePlaylist Scenario.net_up Scenario.base64 Scenario.number_to_string
     [1; 0; 1; 0; 1]%nat "p1" Scenario.w0).1 = Pending.
Proof. vm_compute. reflexivity. Qed.

(** Outside the declared shapes: an entry whose track is [null] makes
    [item.track.id] throw, and [analyzePlaylist] is rejected; a body
    without [tracks] makes [searchTracks] throw; a granted token that
    is an object with a [toString] of its own makes [getAlbum] throw
    once the token request is answered, before any GET. *)
Example analyzePlaylist_null_track :
  (analyzePlaylist Scenario.net_gap Scenario.base64 Scenario.number_to_string
     [0; 0; 0]%nat "p2" Scenario.w0).1 = Rejected TypeError.
Proof. vm_compute. reflexivity. Qed.

Example searchTracks_bare_body :
  (searchTracks Scenario.net_bare Scenario.base64 Scenario.number_to_string
     "A" Scenario.w0).1 = Throw TypeError.
Proof. vm_compute. reflexivity. Qed.

Example getAlbum_token_without_text :
  getAlbum Scenario.net_odd_token Scenario.base64 Scenario.number_to_string
    "a1" Scenario.w0
  = (Throw TypeError,
     let areq := authRequest Scenario.base64 Scenario.w0 in
     mkWorld "id1" "secret1" Scenario.no_text
       [Sent areq;
        Recv areq (HttpResponse 200 (VObj [("access_token", Scenario.no_text)]))]
       []).
Proof. vm_compute. reflexivity. Qed.

(** Two tasks whose token answers are taken one after the other before
    either goes on: both GETs carry the token granted second. *)
Example fanout_gets_after_two_grants :
  take 4 (drop 6 (trace
    (analyzePlaylist Scenario.net_numbered_tokens Scenario.base64
       Scenario.number_to_string [0; 1; 0; 1; 0; 1]%nat "p1" Scenario.w0).2))
  = let areq := authRequest Scenario.base64 Scenario.w0 in
    [Recv areq (HttpResponse 200 (VObj [("access_token", VStr "G")]));
     Recv areq (HttpResponse 200 (VObj [("access_token", VStr "H")]));
     Sent (getRequest "https://api.spotify.com/v1/audio-features/t1" VUndefined "H");
     Sent (getRequest "https://api.spotify.com/v1/audio-features/t2" VUndefined "H")].
Proof. vm_compute. reflexivity. Qed.

(** The remote side [net_up] grants the token ["tok"] and no other. *)
Lemma net_up_grants_text_tokens :
  grants_text_tokens Scenario.net_up Scenario.number_to_string.
Proof.
  intros history req st d t Hurl Hres Hst Hp.
  unfold Scenario.net_up in Hres. rewrite Hurl in Hres.
  change (String.eqb tokenUrl tokenUrl) with true in Hres. cbv iota in Hres.
  unfold Scenario.token_response in Hres. injection Hres as <- <-.
  simpl in Hp. injection Hp as <-. exists "tok". reflexivity.
Qed.

(** ** Where the claims as stated fail *)

(** C1 as stated fails twice.  Credentials refused with a 401 and the
    GET served: [getPlaylist] returns the body, not [undefined].  A
    token without text granted earlier and the remote side unreachable
    since: [getPlaylist] throws. *)
Lemma read_methods_counterexample :
  (getPlaylist Scenario.net_no_token Scenario.base64 Scenario.number_to_string
     "p1" Scenario.w0
   = (Ok Scenario.playlist_p1,
      let areq := authRequest Scenario.base64 Scenario.w0 in
      let greq := getRequest "https://api.spotify.com/v1/playlists/p1" VUndefined "null" in
      let refusal := HttpResponse 401 (VObj [("error", VStr "invalid_client")]) in
      mkWorld "id1" "secret1" VNull
        [Sent areq; Recv areq refusal;
         Sent greq; Recv greq (HttpResponse 200 Scenario.playlist_p1)]
        [("Failed to authenticate with Spotify API", AxiosError refusal)])
   /\ Ok Scenario.playlist_p1 <> Ok VUndefined)
  /\ (getPlaylist Scenario.net_down Scenario.base64 Scenario.number_to_string "p1"
        (authenticate Scenario.net_odd_token Scenario.base64 Scenario.w0).2).1
     = Throw TypeError
  /\ drop 2 (trace
       (getPlaylist Scenario.net_down Scenario.base64 Scenario.number_to_string "p1"
          (authenticate Scenario.net_odd_token Scenario.base64 Scenario.w0).2).2)
     = [Sent (authRequest Scenario.base64 Scenario.w0);
        Recv (authRequest Scenario.base64 Scenario.w0) NetworkError].
Proof.
  split; [split; [vm_compute; reflexivity | discriminate]|].
  split; vm_compute; reflexivity.
Qed.


(** C7 as stated fails: on a wrapper that was granted a token without
    text, [createPlaylist] throws and sends nothing. *)
Lemma createPlaylist_counterexample :
  createPlaylist Scenario.net_up Scenario.number_to_string "u1" "My List" "desc" true
    (authenticate Scenario.net_odd_token Scenario.base64 Scenario.w0).2
  = (Throw TypeError,
     (authenticate Scenario.net_odd_token Scenario.base64 Scenario.w0).2).
Proof. vm_compute. reflexivity. Qed.

(** C8 as stated fails: on that wrapper [addTracksToPlaylist] throws
    and sends nothing. *)
Lemma addTracksToPlaylist_counterexample :
  addTracksToPlaylist Scenario.net_up Scenario.number_to_string "pl1" ["uri1"; "uri2"]
    (authenticate Scenario.net_odd_token Scenario.base64 Scenario.w0).2
  = (Throw TypeError,
     (authenticate Scenario.net_odd_token Scenario.base64 Scenario.w0).2).
Proof. vm_compute. reflexivity. Qed.

(** ** The theorems at work on the scenarios *)

(** An unreachable remote side: [getPlaylist] resolves to [undefined];
    a 404 after a granted token: so does [searchTracks]. *)
Lemma read_methods_absent_on_failure_witness :
  (getPlaylist Scenario.net_down Scenario.base64 Scenario.number_to_string
     "p1" Scenario.w0).1 = Ok VUndefined
  /\ (searchTracks Scenario.net_auth_only Scenario.base64 Scenario.number_to_string
        "nothing" Scenario.w0).1 = Ok VUndefined.
Proof.
  split.
  - pose proof (read_methods_absent_on_failure Scenario.net_down Scenario.base64
                  Scenario.number_to_string) as H.
    destruct H as (_ & Hplaylist & _).
    assert (Htext : to_js_string Scenario.number_to_string
                      (accessToken (authenticate Scenario.net_down Scenario.base64
                                      Scenario.w0).2) = Ok "null")
      by (vm_compute; reflexivity).
    destruct (Hplaylist "p1" Scenario.w0 "null" Htext) as [_ Habsent].
    apply Habsent. reflexivity.
  - pose proof (read_methods_absent_on_failure Scenario.net_auth_only Scenario.base64
                  Scenario.number_to_string) as H.
    destruct H as (_ & _ & _ & _ & _ & _ & _ & Hsearch & _).
    assert (Htext : to_js_string Scenario.number_to_string
                      (accessToken (authenticate Scenario.net_auth_only Scenario.base64
                                      Scenario.w0).2) = Ok "tok")
      by (vm_compute; reflexivity).
    destruct (Hsearch "nothing" Scenario.w0 "tok" Htext) as [_ Habsent].
    apply Habsent. reflexivity.
Defined.

(** A fresh wrapper and a remote side that is up: the trace of
    [getAlbum] is the token request, its answer, the GET, its answer. *)
Lemma every_request_authenticates_once_witness :
  exists greq gres,
    trace (getAlbum Scenario.net_up Scenario.base64 Scenario.number_to_string
             "a1" Scenario.w0).2
    = [Sent (authRequest Scenario.base64 Scenario.w0);
       Recv (authRequest Scenario.base64 Scenario.w0) Scenario.token_response;
       Sent greq; Recv greq gres]
    /\ url greq = "https://api.spotify.com/v1/albums/a1".
Proof.
  pose proof (every_request_authenticates_once Scenario.net_up Scenario.base64
                Scenario.number_to_string) as H.
  destruct H as (_ & _ & Halbum & _).
  destruct (Halbum "a1" Scenario.w0) as (rest & Htr & _ & Htext & _).
  cbv zeta in Htr, Htext.
  assert (Hb : to_js_string Scenario.number_to_string
                 (accessToken (authenticate Scenario.net_up Scenario.base64
                                 Scenario.w0).2) = Ok "tok")
    by (vm_compute; reflexivity).
  destruct (Htext "tok" Hb) as (greq & gres & -> & _ & Hu).
  exists greq, gres. split; [exact Htr | exact Hu].
Defined.

(** The remote side is up: [getPlaylist] returns the body it got,
    [searchTracks] returns [tracks.items] of the body it got. *)
Lemma read_methods_return_body_witness :
  (getPlaylist Scenario.net_up Scenario.base64 Scenario.number_to_string
     "p1" Scenario.w0).1 = Ok Scenario.playlist_p1
  /\ (searchTracks Scenario.net_up Scenario.base64 Scenario.number_to_string
        "A" Scenario.w0).1
     = Ok (VArr [Scenario.track "t1" "A" "X"]).
Proof.
  assert (Htext : to_js_string Scenario.number_to_string
                    (accessToken (authenticate Scenario.net_up Scenario.base64
                                    Scenario.w0).2) = Ok "tok")
    by (vm_compute; reflexivity).
  pose proof (read_methods_return_body Scenario.net_up Scenario.base64
                Scenario.number_to_string) as H.
  destruct H as (_ & Hplaylist & _ & _ & _ & _ & Hsearch & _).
  split.
  - destruct (Hplaylist "p1" Scenario.w0 "tok" Htext) as [_ Hbody].
    apply (Hbody 200 Scenario.playlist_p1); reflexivity.
  - destruct (Hsearch "A" Scenario.w0 "tok" Htext) as [_ Hbody].
    apply (Hbody 200 Scenario.search_result); reflexivity.
Defined.

(** With the remote side down [makeRequest] yields [undefined], and so
    does each of the three unwrapping methods. *)
Lemma unwrapping_methods_stay_absent_witness :
  (searchTracks Scenario.net_down Scenario.base64 Scenario.number_to_string
     "A" Scenario.w0).1 = Ok VUndefined
  /\ (getArtistAlbums Scenario.net_down Scenario.base64 Scenario.number_to_string
        "a1" Scenario.w0).1 = Ok VUndefined
  /\ (getArtistTopTracks Scenario.net_down Scenario.base64 Scenario.number_to_string
        "a1" "DE" Scenario.w0).1 = Ok VUndefined.
Proof.
  pose proof (unwrapping_methods_stay_absent Scenario.net_down Scenario.base64
                Scenario.number_to_string Scenario.w0)
    as (Hs & Ha & Ht).
  split; [|split].
  - apply (Hs "A"). vm_compute. reflexivity.
  - apply (Ha "a1"). vm_compute. reflexivity.
  - apply (Ht "a1" "DE"). vm_compute. reflexivity.
Defined.

(** [createPlaylist("u1", "My List", "desc", true)]: the body of the 201
    comes back as it is; with the remote side down, [undefined]. *)
Lemma createPlaylist_posts_once_witness :
  (createPlaylist Scenario.net_up Scenario.number_to_string
     "u1" "My List" "desc" true Scenario.w0).1
  = Ok (VObj [("id", VStr "pl1"); ("name", VStr "My List");
              ("tracks", VObj [("items", VArr [])])])
  /\ (createPlaylist Scenario.net_down Scenario.number_to_string
        "u1" "My List" "desc" true Scenario.w0).1
     = Ok VUndefined.
Proof.
  split.
  - pose proof (createPlaylist_posts_once Scenario.net_up Scenario.number_to_string
                  Scenario.w0 "u1" "My List" "desc" true "null" eq_refl) as H.
    cbv zeta in H. destruct H as (_ & _ & _ & _ & _ & _ & _ & Hok & _).
    apply (Hok 201); [vm_compute; reflexivity | reflexivity].
  - pose proof (createPlaylist_posts_once Scenario.net_down Scenario.number_to_string
                  Scenario.w0 "u1" "My List" "desc" true "null" eq_refl) as H.
    cbv zeta in H. destruct H as (_ & _ & _ & _ & _ & _ & _ & _ & Hfail).
    apply Hfail. reflexivity.
Defined.

(** [addTracksToPlaylist("pl1", ["uri1", "uri2"])] right after a read:
    one POST with the token of the read, and no value, although the
    remote side answers 404. *)
Lemma addTracksToPlaylist_posts_once_witness :
  (addTracksToPlaylist Scenario.net_up Scenario.number_to_string "pl1" ["uri1"; "uri2"]
     (authenticate Scenario.net_up Scenario.base64 Scenario.w0).2).1 = Ok tt
  /\ drop 2 (trace
       (addTracksToPlaylist Scenario.net_up Scenario.number_to_string
          "pl1" ["uri1"; "uri2"]
          (authenticate Scenario.net_up Scenario.base64 Scenario.w0).2).2)
     = [Sent (addTracksRequest "pl1" ["uri1"; "uri2"] "tok");
        Recv (addTracksRequest "pl1" ["uri1"; "uri2"] "tok") (HttpResponse 404 VNull)].
Proof.
  pose proof (addTracksToPlaylist_posts_once Scenario.net_up Scenario.number_to_string
                (authenticate Scenario.net_up Scenario.base64 Scenario.w0).2
                "pl1" ["uri1"; "uri2"] "tok" eq_refl) as H.
  cbv zeta in H. destruct H as (Hr & Htr & _).
  split; [exact Hr|]. rewrite Htr. vm_compute. reflexivity.
Defined.

(** A failed token request leaves the token unset; a granted one sets it. *)
Lemma authenticate_keeps_token_on_failure_witness :
  accessToken (authenticate Scenario.net_down Scenario.base64 Scenario.w0).2 = VNull
  /\ accessToken (authenticate Scenario.net_up Scenario.base64 Scenario.w0).2 = VStr "tok".
Proof.
  split.
  - pose proof (authenticate_keeps_token_on_failure Scenario.net_down Scenario.base64
                  Scenario.w0) as H.
    cbv zeta in H. destruct H as (_ & _ & Hfail & _).
    apply Hfail. reflexivity.
  - pose proof (authenticate_keeps_token_on_failure Scenario.net_up Scenario.base64
                  Scenario.w0) as H.
    cbv zeta in H. destruct H as (_ & _ & _ & Hok).
    apply (Hok 200 (VObj [("access_token", VStr "tok")]));
      [vm_compute; reflexivity | reflexivity | reflexivity].
Defined.


(** The playlist cannot be fetched: [analyzePlaylist] is fulfilled with
    [undefined]. *)
Lemma analyzePlaylist_absent_playlist_witness :
  (analyzePlaylist Scenario.net_down Scenario.base64 Scenario.number_to_string
     [0; 0]%nat "p1" Scenario.w0).1
  = Fulfilled VUndefined.
Proof.
  assert (Hget : (getPlaylist Scenario.net_down Scenario.base64
                    Scenario.number_to_string "p1" Scenario.w0).1
                 = Ok VUndefined) by (vm_compute; reflexivity).
  destruct (analyzePlaylist_absent_playlist Scenario.net_down Scenario.base64
              Scenario.number_to_string Scenario.w0
              [0; 0]%nat "p1" Hget) as (Hrun & _).
  rewrite Hrun. reflexivity.
Defined.

(** The playlist [p0] has no track: [analyzePlaylist] is fulfilled with
    an empty array. *)
Lemma analyzePlaylist_empty_playlist_witness :
  (analyzePlaylist Scenario.net_up Scenario.base64 Scenario.number_to_string
     [] "p0" Scenario.w0).1 = Fulfilled (VArr []).
Proof.
  assert (Hget : (getPlaylist Scenario.net_up Scenario.base64
                    Scenario.number_to_string "p0" Scenario.w0).1
                 = Ok Scenario.playlist_empty) by (vm_compute; reflexivity).
  destruct (analyzePlaylist_empty_playlist Scenario.net_up Scenario.base64
              Scenario.number_to_string Scenario.w0
              [] "p0" Scenario.playlist_empty (VObj [("items", VArr [])])
              Hget eq_refl eq_refl) as (Hrun & _).
  rewrite Hrun. reflexivity.
Defined.

(** ** The further properties at work on the scenarios *)

(** A granted token without text: [getPlaylist] throws a [TypeError]. *)
Lemma plain_read_methods_throw_iff_witness :
  (getPlaylist Scenario.net_odd_token Scenario.base64 Scenario.number_to_string
     "p1" Scenario.w0).1 = Throw TypeError.
Proof.
  pose proof (plain_read_methods_throw_iff Scenario.net_odd_token Scenario.base64
                Scenario.number_to_string Scenario.w0 TypeError) as H.
  cbv zeta in H. destruct H as (_ & Hplaylist & _).
  apply (proj2 (Hplaylist "p1")).
  split; [reflexivity | vm_compute; reflexivity].
Defined.

(** A 2xx body without [tracks]: [searchTracks] throws a [TypeError]. *)
Lemma searchTracks_throws_iff_witness :
  (searchTracks Scenario.net_bare Scenario.base64 Scenario.number_to_string
     "A" Scenario.w0).1 = Throw TypeError.
Proof.
  apply (proj2 (searchTracks_throws_iff Scenario.net_bare Scenario.base64
                  Scenario.number_to_string Scenario.w0 "A" TypeError)).
  split; [reflexivity|]. right.
  exists "tok", 200, (VObj []), VUndefined.
  split; [vm_compute; reflexivity|].
  split; [vm_compute; reflexivity|].
  repeat split; reflexivity.
Defined.

(** A token held from earlier survives a 200 with body [null], and is
    replaced by [undefined] by a 200 without [access_token]. *)
Lemma authenticate_token_after_answer_witness :
  accessToken (authenticate Scenario.net_null_token Scenario.base64 Scenario.w_old).2
  = VStr "old"
  /\ accessToken (authenticate Scenario.net_no_field Scenario.base64 Scenario.w_old).2
     = VUndefined.
Proof.
  split.
  - apply (authenticate_token_after_answer Scenario.net_null_token Scenario.base64
             Scenario.w_old 200 VNull); reflexivity.
  - apply (authenticate_token_after_answer Scenario.net_no_field Scenario.base64
             Scenario.w_old 200 (VObj [("token_type", VStr "Bearer")])); reflexivity.
Defined.

(** One line for an unreachable token endpoint, one for a 200 with body
    [null]. *)
Lemma authenticate_logs_witness :
  console (authenticate Scenario.net_down Scenario.base64 Scenario.w0).2
  = [("Failed to authenticate with Spotify API", AxiosError NetworkError)]
  /\ console (authenticate Scenario.net_null_token Scenario.base64 Scenario.w0).2
     = [("Failed to authenticate with Spotify API", TypeError)].
Proof.
  split.
  - pose proof (authenticate_logs Scenario.net_down Scenario.base64 Scenario.w0) as H.
    cbv zeta in H. destruct H as (Hfail & _). apply Hfail. reflexivity.
  - pose proof (authenticate_logs Scenario.net_null_token Scenario.base64 Scenario.w0)
      as H.
    cbv zeta in H. destruct H as (_ & Hok). apply (Hok 200 VNull); reflexivity.
Defined.


(** [getArtistTopTracks("a1", "DE")] on a fresh wrapper with the remote
    side up: one GET with the market as its only parameter. *)
Lemma read_methods_requests_witness :
  exists gres,
    drop 2 (trace (getArtistTopTracks Scenario.net_up Scenario.base64
                     Scenario.number_to_string "a1" "DE" Scenario.w0).2)
    = [Sent (mkRequest GET "https://api.spotify.com/v1/artists/a1/top-tracks"
               [("Authorization", "Bearer tok")] (VObj [("market", VStr "DE")])
               VUndefined);
       Recv (mkRequest GET "https://api.spotify.com/v1/artists/a1/top-tracks"
               [("Authorization", "Bearer tok")] (VObj [("market", VStr "DE")])
               VUndefined) gres].
Proof.
  pose proof (read_methods_requests Scenario.net_up Scenario.base64
                Scenario.number_to_string) as H.
  destruct H as (_ & _ & _ & _ & _ & _ & Htop & _).
  assert (Hb : to_js_string Scenario.number_to_string
                 (accessToken (authenticate Scenario.net_up Scenario.base64
                                 Scenario.w0).2) = Ok "tok")
    by (vm_compute; reflexivity).
  destruct (Htop "a1" "DE" Scenario.w0 "tok" Hb) as (gres & Htr).
  exists gres. rewrite Htr. vm_compute. reflexivity.
Defined.

(** The remote side is down: one line from [authenticate], one from
    [makeRequest]. *)
Lemma makeRequest_logs_witness :
  console (makeRequest Scenario.net_down Scenario.base64 Scenario.number_to_string
             "https://api.spotify.com/v1/albums/a1" VUndefined Scenario.w0).2
  = [("Failed to authenticate with Spotify API", AxiosError NetworkError);
     ("Failed to fetch from Spotify API: https://api.spotify.com/v1/albums/a1",
      AxiosError NetworkError)].
Proof.
  rewrite (makeRequest_logs Scenario.net_down Scenario.base64 Scenario.number_to_string
             Scenario.w0 "https://api.spotify.com/v1/albums/a1" VUndefined NetworkError).
  - vm_compute. reflexivity.
  - exists [Sent (authRequest Scenario.base64 Scenario.w0);
            Recv (authRequest Scenario.base64 Scenario.w0) NetworkError],
           (getRequest "https://api.spotify.com/v1/albums/a1" VUndefined "null").
    split; [vm_compute; reflexivity | reflexivity].
Defined.

(** The remote side is down and no token held: one line from
    [createPlaylist]; a token without text held: it throws and writes
    nothing. *)
Lemma mutations_log_witness :
  console (createPlaylist Scenario.net_down Scenario.number_to_string
             "u1" "My List" "desc" true Scenario.w0).2
  = [("Failed to create playlist", AxiosError NetworkError)]
  /\ createPlaylist Scenario.net_down Scenario.number_to_string
       "u1" "My List" "desc" true Scenario.w_odd
     = (Throw TypeError, Scenario.w_odd).
Proof.
  split.
  - destruct (mutations_log Scenario.net_down Scenario.number_to_string Scenario.w0)
      as (Htext & _).
    destruct (Htext "null" eq_refl) as (Hcreate & _).
    apply (Hcreate "u1" "My List" "desc" true).
  - destruct (mutations_log Scenario.net_down Scenario.number_to_string Scenario.w_odd)
      as (_ & Hno).
    destruct (Hno eq_refl) as (Hcreate & _).
    apply (Hcreate "u1" "My List" "desc" true).
Defined.

(** A 204 with an empty body for the playlist: fulfilled with
    [undefined]. *)
Lemma analyzePlaylist_undefined_iff_falsy_witness :
  (analyzePlaylist Scenario.net_blank Scenario.base64 Scenario.number_to_string
     [] "p1" Scenario.w0).1 = Fulfilled VUndefined.
Proof.
  assert (Hget : (getPlaylist Scenario.net_blank Scenario.base64
                    Scenario.number_to_string "p1" Scenario.w0).1 = Ok (VStr ""))
    by (vm_compute; reflexivity).
  destruct (analyzePlaylist_undefined_iff_falsy Scenario.net_blank Scenario.base64
              Scenario.number_to_string Scenario.w0 [] "p1" (VStr "") Hget)
    as (Hiff & _).
  apply Hiff. reflexivity.
Defined.


(** One job missing for the first track of [p1]: pending. *)
Lemma analyzePlaylist_pending_until_answered_witness :
  (analyzePlaylist Scenario.net_up Scenario.base64 Scenario.number_to_string
     [1; 0; 1; 0; 1]%nat "p1" Scenario.w0).1 = Pending.
Proof.
  assert (Hget : (getPlaylist Scenario.net_up Scenario.base64
                    Scenario.number_to_string "p1" Scenario.w0).1
                 = Ok Scenario.playlist_p1) by (vm_compute; reflexivity).
  assert (Htexts : Forall2 (fun id text =>
                              to_js_string Scenario.number_to_string id = Ok text)
                     [VStr "t1"; VStr "t2"] ["t1"; "t2"])
    by (repeat constructor).
  apply (proj2 (analyzePlaylist_pending_until_answered Scenario.net_up Scenario.base64
                  Scenario.number_to_string Scenario.w0 [1; 0; 1; 0; 1]%nat "p1"
                  Scenario.playlist_p1 [VStr "t1"; VStr "t2"] ["t1"; "t2"]
                  Hget eq_refl Htexts net_up_grants_text_tokens)).
  reflexivity.
Defined.

(** The fan-out over [p1] with numbered tokens: every GET carries the
    token granted last before it, and the wrapper ends with the token
    granted last of all. *)
Lemma fanout_gets_carry_last_token_witness :
  exists d,
    trace (analyzePlaylist Scenario.net_numbered_tokens Scenario.base64
             Scenario.number_to_string [0; 1; 0; 1; 0; 1]%nat "p1" Scenario.w0).2
    = trace (getPlaylist Scenario.net_numbered_tokens Scenario.base64
               Scenario.number_to_string "p1" Scenario.w0).2 ++ d
    /\ accessToken (analyzePlaylist Scenario.net_numbered_tokens Scenario.base64
                      Scenario.number_to_string [0; 1; 0; 1; 0; 1]%nat "p1"
                      Scenario.w0).2
       = token_after (VStr "B") d
    /\ gets_carry_last_token Scenario.number_to_string (VStr "B") d.
Proof.
  assert (Hget : (getPlaylist Scenario.net_numbered_tokens Scenario.base64
                    Scenario.number_to_string "p1" Scenario.w0).1
                 = Ok Scenario.playlist_p1) by (vm_compute; reflexivity).
  exact (fanout_gets_carry_last_token Scenario.net_numbered_tokens Scenario.base64
           Scenario.number_to_string Scenario.w0 [0; 1; 0; 1; 0; 1]%nat "p1"
           Scenario.playlist_p1 [VStr "t1"; VStr "t2"] Hget eq_refl).
Defined.

(** The fan-out over [p1] starts with two token requests in a row. *)
Lemma fanout_token_requests_first_witness :
  exists rest,
    trace (analyzePlaylist Scenario.net_up Scenario.base64 Scenario.number_to_string
             [1; 0; 1; 0; 1; 0]%nat "p1" Scenario.w0).2
    = trace (getPlaylist Scenario.net_up Scenario.base64 Scenario.number_to_string
               "p1" Scenario.w0).2
        ++ [Sent (authRequest Scenario.base64 Scenario.w0);
            Sent (authRequest Scenario.base64 Scenario.w0)] ++ rest
    /\ count_events (is_post_to tokenUrl) rest = 0%nat.
Proof.
  assert (Hget : (getPlaylist Scenario.net_up Scenario.base64
                    Scenario.number_to_string "p1" Scenario.w0).1
                 = Ok Scenario.playlist_p1) by (vm_compute; reflexivity).
  destruct (fanout_token_requests_first Scenario.net_up Scenario.base64
              Scenario.number_to_string Scenario.w0 [1; 0; 1; 0; 1; 0]%nat "p1"
              Scenario.playlist_p1 [VStr "t1"; VStr "t2"] Hget eq_refl)
    as (rest & Htr & Hc & _).
  exists rest. split; [exact Htr | exact Hc].
Defined.

(** A playlist is created right after a read: the POST carries the
    token the read was granted. *)
Lemma mutations_carry_token_of_last_read_witness :
  exists res,
    trace (createPlaylist Scenario.net_up Scenario.number_to_string
             "u1" "My List" "desc" true
             (getPlaylist Scenario.net_up Scenario.base64 Scenario.number_to_string
                "p1" Scenario.w0).2).2
    = trace (getPlaylist Scenario.net_up Scenario.base64 Scenario.number_to_string
               "p1" Scenario.w0).2
        ++ [Sent (createPlaylistRequest "u1" "My List" "desc" true "tok");
            Recv (createPlaylistRequest "u1" "My List" "desc" true "tok") res].
Proof.
  pose proof (mutations_carry_token_of_last_read Scenario.net_up Scenario.base64
                Scenario.number_to_string Scenario.w0
                "https://api.spotify.com/v1/playlists/p1" VUndefined
                200 (VObj [("access_token", VStr "tok")]) (VStr "tok") "tok"
                eq_refl eq_refl eq_refl eq_refl) as H.
  cbv zeta in H. destruct H as (Hcreate & _).
  exact (Hcreate "u1" "My List" "desc" true).
Defined.
